(** * note-exte: a Nostr note editor and hashtag feed

  A shallow embedding of the client's logic: the descending-timestamp feed
  that [App] keeps in React state, the subscription and metadata effects of
  [App], and the handlers of the [CreateNote] component (publish, delete,
  restore).  React state is passed explicitly; what a handler shows to the
  user or sends to the relays is returned as a list of effects. *)

From Stdlib Require Import ZArith Ascii String.
From stdpp Require Import base list strings gmap.

Local Open Scope Z_scope.

(** ** JavaScript strings

  A JavaScript string is a sequence of UTF-16 code units. *)

Abbreviation jsstring := (list N).

(** The code units of an ASCII literal. *)
Definition js (s : string) : jsstring :=
  N_of_ascii <$> list_ascii_of_string s.

(** ** Events (nostr-tools [EventTemplate] and [Event]) *)

Module EventTemplate.

Record t := {
  content : jsstring;
  created_at : Z;
  kind : Z;
  tags : list (list jsstring)
}.

End EventTemplate.

Module Event.

Record t := {
  id : jsstring;
  pubkey : jsstring;
  created_at : Z;
  kind : Z;
  tags : list (list jsstring);
  content : jsstring;
  sig : jsstring
}.

End Event.

(** ** The ordered feed *)

Module Feed.

(** An Item of the feed is an event: [id], [timestamp] = [created_at],
    [authorId] = [pubkey], [payload] = [content]. *)
Abbreviation Item := Event.t.
Abbreviation Feed := (list Event.t).

Definition timestamp (item : Item) : Z := Event.created_at item.

(** Does an item with the id of [item] occur anywhere in [feed]? *)
Definition has_id (feed : Feed) (item : Item) : bool :=
  existsb (fun x => bool_decide (Event.id x = Event.id item)) feed.

(** An item with the id of [item] occurs in [feed]. *)
Definition occurs (feed : Feed) (item : Item) : Prop :=
  ∃ x, x ∈ feed ∧ Event.id x = Event.id item.

(** The scan from the front: [item] goes immediately before the first
    resident item whose timestamp is strictly smaller, at the end when
    there is none. *)
Fixpoint insert_before_first_smaller (feed : Feed) (item : Item) : Feed :=
  match feed with
  | [] => [item]
  | x :: rest =>
      if timestamp x <? timestamp item
      then item :: x :: rest
      else x :: insert_before_first_smaller rest item
  end.

(** Modelled from the spec: the helper [insertEventIntoDescendingList] of
    [./utils/helperFunctions], which [App] imports and which is not among
    the sources.  The spec's [insert(feed, item)]: a duplicate id anywhere
    in the feed makes the operation a no-op; otherwise the item is placed
    by the scan from the front. *)
Definition insertEventIntoDescendingList (feed : Feed) (item : Item) : Feed :=
  if has_id feed item then feed else insert_before_first_smaller feed item.

(** Arrivals inserted one at a time into an initially empty feed. *)
Definition ingest (arrivals : list Item) : Feed :=
  foldl insertEventIntoDescendingList [] arrivals.

(** Sort invariant: every adjacent pair (a, b), a before b, has
    [a.timestamp >= b.timestamp]. *)
Definition sorted_desc (feed : Feed) : Prop :=
  ∀ (i : nat) (a b : Item),
    feed !! i = Some a → feed !! S i = Some b → timestamp a >= timestamp b.

Fixpoint sorted_descb (feed : Feed) : bool :=
  match feed with
  | a :: (b :: _) as rest => (timestamp b <=? timestamp a) && sorted_descb rest
  | _ => true
  end.

(** Uniqueness invariant: no two positions of the feed hold the same id. *)
Definition unique_ids (feed : Feed) : Prop :=
  ∀ (i j : nat) (a b : Item),
    feed !! i = Some a → feed !! j = Some b →
    Event.id a = Event.id b → i = j.

Definition feed_invariants (feed : Feed) : Prop :=
  sorted_desc feed ∧ unique_ids feed.

(** An item with the ids and timestamps of the spec's examples. *)
Definition item (i : string) (ts : Z) : Item :=
  {| Event.id := js i; Event.pubkey := js "author"; Event.created_at := ts;
     Event.kind := 1; Event.tags := []; Event.content := [];
     Event.sig := [] |}.


End Feed.


(** ** JSON.parse

    [JSON.parse] is a built-in of the JavaScript platform.  It is embedded as
    a recursive-descent parser of the JSON grammar (ECMA-404) over code
    units.  A number keeps its literal: the conversion to a double is not
    modelled.  An object holds its own properties in the order the object
    enumerates them ([own_properties]). *)

Module JSON.

Local Set Warnings "-register-all".

Inductive value :=
| JNull
| JBool (b : bool)
| JNumber (literal : jsstring)
| JString (s : jsstring)
| JArray (elements : list value)
| JObject (properties : list (jsstring * value)).

Inductive parse_result (A : Type) :=
| Parsed (a : A) (rest : list N)
| SyntaxError
| OutOfFuel.
Arguments Parsed {A} a rest.
Arguments SyntaxError {A}.
Arguments OutOfFuel {A}.

(** Is the code unit [x] the ASCII character [a]? *)
Definition is_char (a : ascii) (x : N) : bool := N.eqb x (N_of_ascii a).

(** The double quote and the backslash. *)
Definition is_quote (x : N) : bool := N.eqb x 34.
Definition is_backslash (x : N) : bool := N.eqb x 92.

(** White space: tab, line feed, carriage return, space. *)
Definition is_ws (x : N) : bool :=
  N.eqb x 9 || N.eqb x 10 || N.eqb x 13 || N.eqb x 32.

Fixpoint skip_ws (s : list N) : list N :=
  match s with
  | x :: rest => if is_ws x then skip_ws rest else s
  | [] => []
  end.

Definition is_digit (x : N) : bool := N.leb 48 x && N.leb x 57.

(** The value of a hexadecimal digit. *)
Definition hex_digit (x : N) : option N :=
  if is_digit x then Some (x - 48)%N
  else if N.leb 65 x && N.leb x 70 then Some (x - 55)%N
  else if N.leb 97 x && N.leb x 102 then Some (x - 87)%N
  else None.

Definition hex4 (h1 h2 h3 h4 : N) : option N :=
  match hex_digit h1, hex_digit h2, hex_digit h3, hex_digit h4 with
  | Some a, Some b, Some c, Some d => Some (((a * 16 + b) * 16 + c) * 16 + d)%N
  | _, _, _, _ => None
  end.

(** The character of a one-letter escape. *)
Definition escape (x : N) : option N :=
  if is_quote x then Some 34%N
  else if is_backslash x then Some 92%N
  else if is_char "/" x then Some 47%N
  else if is_char "b" x then Some 8%N
  else if is_char "f" x then Some 12%N
  else if is_char "n" x then Some 10%N
  else if is_char "r" x then Some 13%N
  else if is_char "t" x then Some 9%N
  else None.

Definition cons_char (x : N) (r : parse_result jsstring) : parse_result jsstring :=
  match r with
  | Parsed str rest => Parsed (x :: str) rest
  | other => other
  end.

(** The characters of a string after its opening quote, up to and
    including the closing quote. *)
Fixpoint string_body (s : list N) : parse_result jsstring :=
  match s with
  | [] => SyntaxError
  | x :: rest =>
      if is_quote x then Parsed [] rest
      else if is_backslash x then
        match rest with
        | [] => SyntaxError
        | e :: rest1 =>
            if is_char "u" e then
              match rest1 with
              | h1 :: h2 :: h3 :: h4 :: rest2 =>
                  match hex4 h1 h2 h3 h4 with
                  | Some u => cons_char u (string_body rest2)
                  | None => SyntaxError
                  end
              | _ => SyntaxError
              end
            else
              match escape e with
              | Some c => cons_char c (string_body rest1)
              | None => SyntaxError
              end
        end
      else if N.ltb x 32 then SyntaxError
      else cons_char x (string_body rest)
  end.

(** The longest prefix of digits, and what follows it. *)
Fixpoint digits (s : list N) : list N * list N :=
  match s with
  | x :: rest =>
      if is_digit x then let '(ds, r) := digits rest in (x :: ds, r) else ([], s)
  | [] => ([], [])
  end.

Definition minus_sign (s : list N) : list N * list N :=
  match s with
  | x :: rest => if is_char "-" x then ([x], rest) else ([], s)
  | [] => ([], [])
  end.

(** [0], or a non-zero digit followed by digits. *)
Definition int_part (s : list N) : option (list N * list N) :=
  match s with
  | x :: rest =>
      if is_char "0" x then Some ([x], rest)
      else if is_digit x then let '(ds, r) := digits rest in Some (x :: ds, r)
      else None
  | [] => None
  end.

(** A fraction: a point and at least one digit; optional. *)
Definition frac_part (s : list N) : option (list N * list N) :=
  match s with
  | x :: rest =>
      if is_char "." x then
        match digits rest with
        | ([], _) => None
        | (ds, r) => Some (x :: ds, r)
        end
      else Some ([], s)
  | [] => Some ([], [])
  end.

Definition exp_sign (s : list N) : list N * list N :=
  match s with
  | x :: rest => if is_char "+" x || is_char "-" x then ([x], rest) else ([], s)
  | [] => ([], [])
  end.

(** An exponent: [e] or [E], an optional sign, at least one digit;
    optional. *)
Definition exp_part (s : list N) : option (list N * list N) :=
  match s with
  | x :: rest =>
      if is_char "e" x || is_char "E" x then
        let '(sg, r1) := exp_sign rest in
        match digits r1 with
        | ([], _) => None
        | (ds, r2) => Some (x :: sg ++ ds, r2)
        end
      else Some ([], s)
  | [] => Some ([], [])
  end.

Definition number (s : list N) : parse_result jsstring :=
  let '(sg, s1) := minus_sign s in
  match int_part s1 with
  | None => SyntaxError
  | Some (ip, s2) =>
      match frac_part s2 with
      | None => SyntaxError
      | Some (fp, s3) =>
          match exp_part s3 with
          | None => SyntaxError
          | Some (ep, s4) => Parsed (sg ++ ip ++ fp ++ ep) s4
          end
      end
  end.

(** [s] without the prefix [word], when it starts with it. *)
Fixpoint strip (word s : list N) : option (list N) :=
  match word, s with
  | [], _ => Some s
  | w :: word', x :: rest => if N.eqb w x then strip word' rest else None
  | _ :: _, [] => None
  end.

(** The literals [null], [true] and [false]. *)
Definition literal (s : list N) : parse_result value :=
  match strip (js "null") s with
  | Some r => Parsed JNull r
  | None =>
      match strip (js "true") s with
      | Some r => Parsed (JBool true) r
      | None =>
          match strip (js "false") s with
          | Some r => Parsed (JBool false) r
          | None => SyntaxError
          end
      end
  end.

(** The decimal number a string of digits writes. *)
Definition decimal (digits : list N) : N :=
  foldl (λ n d, (n * 10 + (d - 48))%N) 0%N digits.

(** A property key that is an array index: the canonical decimal of an
    integer below 2^32 - 1 (no sign, no leading zero). *)
Definition array_index (key : jsstring) : option N :=
  match key with
  | [] => None
  | d :: more =>
      if forallb is_digit key && (negb (N.eqb d 48) || bool_decide (more = []))
      then if N.ltb (decimal key) 4294967295 then Some (decimal key) else None
      else None
  end.

Definition has_key {A : Type} (key : jsstring) (members : list (jsstring * A))
  : bool :=
  existsb (λ m, bool_decide (m.1 = key)) members.

(** A new property whose key is the array index [n] goes among the index
    keys, in ascending order, before every other key. *)
Fixpoint insert_index {A : Type} (n : N) (key : jsstring) (v : A)
    (members : list (jsstring * A)) : list (jsstring * A) :=
  match members with
  | [] => [(key, v)]
  | m :: rest =>
      match array_index m.1 with
      | Some k =>
          if N.ltb k n then m :: insert_index n key v rest
          else (key, v) :: m :: rest
      | None => (key, v) :: m :: rest
      end
  end.

(** [CreateDataProperty]: a key the object has keeps its place and takes
    the new value; a new index key goes among the index keys; any other new
    key goes to the end. *)
Definition define_property {A : Type} (members : list (jsstring * A))
    (member : jsstring * A) : list (jsstring * A) :=
  if has_key member.1 members
  then (λ m, if bool_decide (m.1 = member.1) then member else m) <$> members
  else
    match array_index member.1 with
    | Some n => insert_index n member.1 member.2 members
    | None => members ++ [member]
    end.

(** The own properties of the object that [JSON.parse] builds from the
    members of an object text, in the order the object enumerates them: a
    repeated key keeps its last value. *)
Definition own_properties {A : Type} (members : list (jsstring * A))
  : list (jsstring * A) :=
  foldl define_property [] members.

(** The value parser.  [parse_value] reads one value after optional white
    space; [parse_elements] reads the elements of an array after its opening
    bracket or a comma, [parse_members] the members of an object likewise.
    Each call uses one unit of [fuel]. *)
Fixpoint parse_value (fuel : nat) (s : list N) {struct fuel} : parse_result value :=
  match fuel with
  | O => OutOfFuel
  | S fuel' =>
      match skip_ws s with
      | [] => SyntaxError
      | x :: rest =>
          if is_char "[" x then
            match skip_ws rest with
            | y :: rest1 =>
                if is_char "]" y then Parsed (JArray []) rest1
                else
                  match parse_elements fuel' rest with
                  | Parsed els r => Parsed (JArray els) r
                  | SyntaxError => SyntaxError
                  | OutOfFuel => OutOfFuel
                  end
            | [] => SyntaxError
            end
          else if is_char "{" x then
            match skip_ws rest with
            | y :: rest1 =>
                if is_char "}" y then Parsed (JObject []) rest1
                else
                  match parse_members fuel' rest with
                  | Parsed ms r => Parsed (JObject (own_properties ms)) r
                  | SyntaxError => SyntaxError
                  | OutOfFuel => OutOfFuel
                  end
            | [] => SyntaxError
            end
          else if is_quote x then
            match string_body rest with
            | Parsed str r => Parsed (JString str) r
            | SyntaxError => SyntaxError
            | OutOfFuel => OutOfFuel
            end
          else if is_char "-" x || is_digit x then
            match number (x :: rest) with
            | Parsed lit r => Parsed (JNumber lit) r
            | SyntaxError => SyntaxError
            | OutOfFuel => OutOfFuel
            end
          else literal (x :: rest)
      end
  end
with parse_elements (fuel : nat) (s : list N) {struct fuel} : parse_result (list value) :=
  match fuel with
  | O => OutOfFuel
  | S fuel' =>
      match parse_value fuel' s with
      | Parsed v r =>
          match skip_ws r with
          | y :: r1 =>
              if is_char "]" y then Parsed [v] r1
              else if is_char "," y then
                match parse_elements fuel' r1 with
                | Parsed vs r2 => Parsed (v :: vs) r2
                | other => other
                end
              else SyntaxError
          | [] => SyntaxError
          end
      | SyntaxError => SyntaxError
      | OutOfFuel => OutOfFuel
      end
  end
with parse_members (fuel : nat) (s : list N) {struct fuel} : parse_result (list (jsstring * value)) :=
  match fuel with
  | O => OutOfFuel
  | S fuel' =>
      match skip_ws s with
      | q :: s1 =>
          if is_quote q then
            match string_body s1 with
            | Parsed key s2 =>
                match skip_ws s2 with
                | c :: s3 =>
                    if is_char ":" c then
                      match parse_value fuel' s3 with
                      | Parsed v r =>
                          match skip_ws r with
                          | y :: r1 =>
                              if is_char "}" y then Parsed [(key, v)] r1
                              else if is_char "," y then
                                match parse_members fuel' r1 with
                                | Parsed ms r2 => Parsed ((key, v) :: ms) r2
                                | other => other
                                end
                              else SyntaxError
                          | [] => SyntaxError
                          end
                      | SyntaxError => SyntaxError
                      | OutOfFuel => OutOfFuel
                      end
                    else SyntaxError
                | [] => SyntaxError
                end
            | SyntaxError => SyntaxError
            | OutOfFuel => OutOfFuel
            end
          else SyntaxError
      | [] => SyntaxError
      end
  end.

(** A whole text: one value, then nothing but white space.  Twice the
    length of the text is fuel enough ([document_fuel] below). *)
Definition document (text : jsstring) : parse_result value :=
  match parse_value (S (2 * length text)) text with
  | Parsed v rest =>
      match skip_ws rest with
      | [] => Parsed v []
      | _ :: _ => SyntaxError
      end
  | SyntaxError => SyntaxError
  | OutOfFuel => OutOfFuel
  end.

(** [JSON.parse(text)]: the value, or [None] when it throws a SyntaxError. *)
Definition parse (text : jsstring) : option value :=
  match document text with
  | Parsed v _ => Some v
  | _ => None
  end.

Definition is_string (v : value) : bool :=
  match v with
  | JString _ => true
  | _ => false
  end.

(** Is the value a sequence of strings? *)
Definition is_string_array (v : value) : bool :=
  match v with
  | JArray elements => forallb is_string elements
  | _ => false
  end.

End JSON.

(** ** The relays ([RELAYS] of [App.tsx]) *)

Definition RELAYS : list jsstring :=
  js <$> [ "wss://nos.lol"; "wss://relay.damus.io"; "wss://eden.nostr.land";
           "wss://nostr.wine"; "wss://relay.snort.social";
           "wss://relay.nostr.band"; "wss://nostr.bitcoiner.social";
           "wss://nostr-pub.wellorder.net"; "wss://relay.nostr.bg";
           "wss://nostr.mom"; "wss://relay.orangepill.dev";
           "wss://relay.nostr.com.au"; "wss://offchain.pub";
           "wss://relay.plebstr.com"; "wss://nostr.fmt.wiz.biz";
           "wss://nostr.rocks"; "wss://nostr.mutinywallet.com";
           "wss://e.nos.lol"; "wss://purplepag.es";
           "wss://nostr-relay.nokotaro.com"; "wss://filter.nostr.wine";
           "wss://relayable.org"; "wss://relay.mostr.pub";
           "wss://nostr.mutinywallet.com" ]%string.

(** ** The [CreateNote] component *)

Module CreateNote.

(** The component's React state.  [savedNotes] is declared [string[]], but
    it receives whatever [JSON.parse] returns, so it is a JSON value. *)
Record State := {
  input : jsstring;
  savedNotes : JSON.value;
  editedNoteIndex : option nat
}.

Definition initial : State :=
  {| input := []; savedNotes := JSON.JArray []; editedNoteIndex := None |}.

Definition setInput (text : jsstring) (st : State) : State :=
  {| input := text; savedNotes := savedNotes st;
     editedNoteIndex := editedNoteIndex st |}.

Definition setSavedNotes (notes : JSON.value) (st : State) : State :=
  {| input := input st; savedNotes := notes;
     editedNoteIndex := editedNoteIndex st |}.

Definition setEditedNoteIndex (index : option nat) (st : State) : State :=
  {| input := input st; savedNotes := savedNotes st;
     editedNoteIndex := index |}.

(** What a handler does to the outside. *)
Inductive effect :=
| Alert (message : jsstring)
| Publish (relays : list jsstring) (event : Event.t).

(** A promise of the signer, awaited: its value, or a rejection. *)
Inductive awaited (A : Type) :=
| Resolved (a : A)
| Rejected.
Arguments Resolved {A} a.
Arguments Rejected {A}.

(** [window.nostr], the external signer. *)
Record Signer := {
  getPublicKey : awaited jsstring;
  signEvent : EventTemplate.t → awaited jsstring
}.

(** The browser at the time of a publish: the signer if there is one, the
    user's answer to [window.confirm], and [Date.now()] in milliseconds. *)
Record Window := {
  nostr : option Signer;
  confirm : jsstring → bool;
  now : Z
}.

(** The state of one publish attempt: the variable [clearedInput] that the
    acknowledgement handler closes over. *)
Record Publication := { clearedInput : bool }.

(** [Math.round(Date.now() / 1000)]. *)
Definition created_at_of (now : Z) : Z := (now + 500) / 1000.

Definition baseEvent (text : jsstring) (hashtags : list jsstring) (now : Z)
  : EventTemplate.t :=
  {| EventTemplate.content := text;
     EventTemplate.created_at := created_at_of now;
     EventTemplate.kind := 1;
     EventTemplate.tags := (λ hashtag, [js "t"; hashtag]) <$> hashtags |}.

Section Handlers.

(** [getEventHash] of nostr-tools, applied to the template and the public
    key. *)
Variable getEventHash : EventTemplate.t → jsstring → jsstring.

Variable hashtags : list jsstring.

Definition signed (base : EventTemplate.t) (sig pubkey : jsstring)
  : Event.t :=
  {| Event.id := getEventHash base pubkey;
     Event.pubkey := pubkey;
     Event.created_at := EventTemplate.created_at base;
     Event.kind := EventTemplate.kind base;
     Event.tags := EventTemplate.tags base;
     Event.content := EventTemplate.content base;
     Event.sig := sig |}.

(** [handlePublish], up to the registration of the acknowledgement handler.
    It returns the state, the effects, and the publish attempt it started,
    if any. *)
Definition handlePublish (w : Window) (st : State)
  : State * list effect * option Publication :=
  match nostr w with
  | None => (st, [Alert (js "Nostr extension not found")], None)
  | Some signer =>
      if negb (confirm w (js "Are you sure you want to publish this note to Nostr?"))
      then (st, [], None)
      else
        let _baseEvent := baseEvent (input st) hashtags (now w) in
        match getPublicKey signer with
        | Rejected => (st, [Alert (js "User rejected operation")], None)
        | Resolved pubkey =>
            match signEvent signer _baseEvent with
            | Rejected => (st, [Alert (js "User rejected operation")], None)
            | Resolved sig =>
                (st, [Publish RELAYS (signed _baseEvent sig pubkey)],
                 Some {| clearedInput := false |})
            end
        end
  end.

End Handlers.

(** The handler of [pubs.on("ok", ...)]. *)
Definition on_ok (p : Publication) (st : State) : Publication * State :=
  if clearedInput p then (p, st)
  else ({| clearedInput := true |}, setEditedNoteIndex None (setInput [] st)).

(** What happens while a publish attempt is pending: a relay acknowledges,
    a relay fails (no handler is registered for that), or the user does
    something that changes the state. *)
Inductive occurrence :=
| Ok (relay : jsstring)
| Failed (relay : jsstring)
| User (change : State → State).

Definition occur (ps : Publication * State) (o : occurrence)
  : Publication * State :=
  match o with
  | Ok _ => on_ok (fst ps) (snd ps)
  | Failed _ => ps
  | User change => (fst ps, change (snd ps))
  end.

Definition occur_all (os : list occurrence) (ps : Publication * State)
  : Publication * State :=
  foldl occur ps os.

Definition is_ok (o : occurrence) : bool :=
  match o with
  | Ok _ => true
  | _ => false
  end.

(** What one relay answers to the publish: an acknowledgement or a
    failure. *)
Definition response (answer : jsstring * bool) : occurrence :=
  if answer.2 then Ok answer.1 else Failed answer.1.

(** A handler returns, or throws a TypeError. *)
Inductive outcome (A : Type) :=
| Returned (a : A)
| TypeError.
Arguments Returned {A} a.
Arguments TypeError {A}.

(** [array.filter((_, index) => keep index)], from position [from]. *)
Fixpoint filter_index {A : Type} (keep : nat → bool) (from : nat) (l : list A)
  : list A :=
  match l with
  | [] => []
  | x :: rest =>
      if keep from then x :: filter_index keep (S from) rest
      else filter_index keep (S from) rest
  end.

(** [handleEdit], defined where the index holds a string note, as it does
    for every index the component renders a button for. *)
Definition handleEdit (indexToEdit : nat) (st : State) : option State :=
  match savedNotes st with
  | JSON.JArray notes =>
      match notes !! indexToEdit with
      | Some (JSON.JString note) =>
          Some (setInput note (setEditedNoteIndex (Some indexToEdit) st))
      | _ => None
      end
  | _ => None
  end.

Definition handleDelete (indexToDelete : nat) (st : State) : outcome State :=
  if bool_decide (editedNoteIndex st = Some indexToDelete)
  then Returned (setInput [] (setEditedNoteIndex None st))
  else
    match savedNotes st with
    | JSON.JArray notes =>
        let updatedNotes :=
          filter_index (λ index, negb (index =? indexToDelete)%nat) 0 notes in
        Returned (setSavedNotes (JSON.JArray updatedNotes) st)
    | _ => TypeError
    end.

(** [reader.onload] of [handleRestore]: the text of the chosen file. *)
Definition onload (content : jsstring) (st : State) : State * list effect :=
  match JSON.parse content with
  | Some parsedNotes => (setSavedNotes parsedNotes st, [])
  | None => (st, [Alert (js "Invalid JSON file.")])
  end.

(** [handleRestore]: the user picks a file, or none. *)
Definition handleRestore (file : option jsstring) (st : State)
  : State * list effect :=
  match file with
  | Some content => onload content st
  | None => (st, [])
  end.

(** Is the text the JSON of a sequence of strings? *)
Definition string_sequence (content : jsstring) : bool :=
  match JSON.parse content with
  | Some v => JSON.is_string_array v
  | None => false
  end.

End CreateNote.

(** ** The [App] component *)

Module App.
Import Feed.

Inductive SimplePool := new_SimplePool.

(** A subscription filter. *)
Record Filter := {
  kinds : list Z;
  limit : option Z;
  authors : option (list jsstring);
  hashtag_t : option (list jsstring)
}.

(** What the component asks of the relay pool. *)
Inductive request :=
| Sub (relays : list jsstring) (filters : list Filter)
| Unsub.

(** React state and refs of [App].  [events] is the debounced copy of
    [eventsImmediate]; [subscribed] tells whether the subscription effect
    has a subscription to clean up.  [metadataFetched] holds the own
    properties of the object of the ref.  The metadata record written by
    [setMetadata] is never read and is left out. *)
Record State := {
  pool : option SimplePool;
  eventsImmediate : Feed;
  events : Feed;
  metadataFetched : gmap jsstring bool;
  hashtags : list jsstring;
  subscribed : bool
}.

Definition initial : State :=
  {| pool := None; eventsImmediate := []; events := [];
     metadataFetched := ∅; hashtags := []; subscribed := false |}.

Definition setPool (p : SimplePool) (st : State) : State :=
  {| pool := Some p; eventsImmediate := eventsImmediate st;
     events := events st; metadataFetched := metadataFetched st;
     hashtags := hashtags st; subscribed := subscribed st |}.

Definition setEvents (update : Feed → Feed) (st : State) : State :=
  {| pool := pool st; eventsImmediate := update (eventsImmediate st);
     events := events st; metadataFetched := metadataFetched st;
     hashtags := hashtags st; subscribed := subscribed st |}.

Definition setHashtags (tags : list jsstring) (st : State) : State :=
  {| pool := pool st; eventsImmediate := eventsImmediate st;
     events := events st; metadataFetched := metadataFetched st;
     hashtags := tags; subscribed := subscribed st |}.

Definition set_subscribed (b : bool) (st : State) : State :=
  {| pool := pool st; eventsImmediate := eventsImmediate st;
     events := events st; metadataFetched := metadataFetched st;
     hashtags := hashtags st; subscribed := b |}.

Definition set_events (snapshot : Feed) (st : State) : State :=
  {| pool := pool st; eventsImmediate := eventsImmediate st;
     events := snapshot; metadataFetched := metadataFetched st;
     hashtags := hashtags st; subscribed := subscribed st |}.

Definition set_metadataFetched (m : gmap jsstring bool) (st : State) : State :=
  {| pool := pool st; eventsImmediate := eventsImmediate st;
     events := events st; metadataFetched := m;
     hashtags := hashtags st; subscribed := subscribed st |}.

Definition feed_filter (tags : list jsstring) : Filter :=
  {| kinds := [1]; limit := Some 100; authors := None;
     hashtag_t := Some tags |}.

Definition metadata_filter (pubkeys : list jsstring) : Filter :=
  {| kinds := [0]; limit := None; authors := Some pubkeys;
     hashtag_t := None |}.

(** The clean-up of the subscription effect: [sub.unsub()], when the effect
    had subscribed. *)
Definition subscription_cleanup (st : State) : State * list request :=
  if subscribed st then (set_subscribed false st, [Unsub]) else (st, []).

(** The body of the subscription effect (dependencies [hashtags], [pool]). *)
Definition subscription_effect (st : State) : State * list request :=
  match pool st with
  | None => (st, [])
  | Some _ =>
      (set_subscribed true (setEvents (λ _, []) st),
       [Sub RELAYS [feed_filter (hashtags st)]])
  end.

(** The handler of [sub.on("event", ...)] of the feed subscription. *)
Definition on_event (event : Event.t) (st : State) : State :=
  setEvents (λ events, insertEventIntoDescendingList events event) st.

(** [metadataFetched.current] is a plain object; the map holds its own
    properties.  The key [__proto__] is not one of them: it names the
    accessor that the object inherits, so reading it gives the prototype,
    never [true], and assigning [true] to it does nothing. *)
Definition proto_key : jsstring := js "__proto__".

(** [metadataFetched.current[pubkey] === true] *)
Definition is_fetched (m : gmap jsstring bool) (pubkey : jsstring) : bool :=
  negb (bool_decide (pubkey = proto_key))
  && bool_decide (m !! pubkey = Some true).

(** [metadataFetched.current[pubkey] !== true] *)
Definition not_fetched (m : gmap jsstring bool) (pubkey : jsstring) : bool :=
  negb (is_fetched m pubkey).

Definition pubkeysToFetch (st : State) : list jsstring :=
  Event.pubkey <$>
    List.filter (λ event, not_fetched (metadataFetched st) (Event.pubkey event))
      (events st).

(** [metadataFetched.current[pubkey] = true] *)
Definition assign_true (m : gmap jsstring bool) (pubkey : jsstring)
  : gmap jsstring bool :=
  if bool_decide (pubkey = proto_key) then m else <[pubkey := true]> m.

(** [pubkeys.forEach((pubkey) => (metadataFetched.current[pubkey] = true))] *)
Definition mark_fetched (pubkeys : list jsstring) (m : gmap jsstring bool)
  : gmap jsstring bool :=
  foldl assign_true m pubkeys.

(** The body of the metadata effect (dependencies [events], [pool]). *)
Definition metadata_effect (st : State) : State * list request :=
  match pool st with
  | None => (st, [])
  | Some _ =>
      let pubkeys := pubkeysToFetch st in
      (set_metadataFetched (mark_fetched pubkeys (metadataFetched st)) st,
       [Sub RELAYS [metadata_filter pubkeys]])
  end.

(** What can happen to the component: the pool effect runs and sets the
    pool; the hashtag set changes; the feed subscription delivers an event;
    the debounce hands the current feed on as [events]. *)
Inductive action :=
| PoolCreated
| HashtagsChanged (tags : list jsstring)
| EventReceived (event : Event.t)
| Debounced.

(** One action, with the effects React re-runs for the dependencies it
    changes, in the order the component declares them.  The debounce always
    re-runs the metadata effect, also when the feed it hands on is the one
    it handed on before. *)
Definition step (st : State) (a : action) : State * list request :=
  match a with
  | PoolCreated =>
      let st0 := setPool new_SimplePool st in
      let '(st1, r1) := subscription_cleanup st0 in
      let '(st2, r2) := subscription_effect st1 in
      let '(st3, r3) := metadata_effect st2 in
      (st3, r1 ++ r2 ++ r3)
  | HashtagsChanged tags =>
      let st0 := setHashtags tags st in
      let '(st1, r1) := subscription_cleanup st0 in
      let '(st2, r2) := subscription_effect st1 in
      (st2, r1 ++ r2)
  | EventReceived event =>
      if subscribed st then (on_event event st, []) else (st, [])
  | Debounced =>
      metadata_effect (set_events (eventsImmediate st) st)
  end.

(** A run of actions, with the requests it made, oldest first. *)
Fixpoint run (st : State) (actions : list action) : State * list request :=
  match actions with
  | [] => (st, [])
  | a :: rest =>
      let '(st1, r1) := step st a in
      let '(st2, r2) := run st1 rest in
      (st2, r1 ++ r2)
  end.

Definition state_after (actions : list action) (st : State) : State :=
  (run st actions).1.

(** Without a pool there is no subscription and the feed is empty. *)
Definition no_pool_no_feed (st : State) : Prop :=
  pool st = None → eventsImmediate st = [] ∧ subscribed st = false.

(** The author lists a request asks metadata for: one for each of its
    filters that names authors. *)
Definition fetch_authors (r : request) : list (list jsstring) :=
  match r with
  | Sub _ filters => omap authors filters
  | Unsub => []
  end.

(** The author lists of the metadata fetches among the requests. *)
Definition metadata_fetches (requests : list request) : list (list jsstring) :=
  requests ≫= fetch_authors.

(** In how many of the fetches is [pubkey] asked for? *)
Definition fetches_of (pubkey : jsstring) (fetches : list (list jsstring)) : nat :=
  length (List.filter (λ pubkeys, bool_decide (pubkey ∈ pubkeys)) fetches).

End App.

(** ** JSON.stringify

    [JSON.stringify] of the platform, on the values built from [null],
    booleans, strings and arrays.  Numbers (the formatting of a double) and
    objects (the order of their properties) are left out: on them the
    embedding gives [None]. *)

Module Stringify.
Import JSON.

Definition is_high_surrogate (x : N) : bool := N.leb 55296 x && N.leb x 56319.
Definition is_low_surrogate (x : N) : bool := N.leb 56320 x && N.leb x 57343.

(** The lower-case hexadecimal digit of [d]. *)
Definition hex_char (d : N) : N :=
  if N.ltb d 10 then (d + 48)%N else (d + 87)%N.

(** [\uXXXX] *)
Definition unicode_escape (u : N) : jsstring :=
  [ 92; 117; hex_char ((u / 4096) mod 16); hex_char ((u / 256) mod 16);
    hex_char ((u / 16) mod 16); hex_char (u mod 16) ]%N.

(** One code unit that is a code point of its own, quoted: the short
    escapes, [\uXXXX] for the other control characters and for a surrogate
    without its partner, the unit itself otherwise. *)
Definition quote_unit (x : N) : jsstring :=
  if N.eqb x 8 then [92; 98]%N
  else if N.eqb x 9 then [92; 116]%N
  else if N.eqb x 10 then [92; 110]%N
  else if N.eqb x 12 then [92; 102]%N
  else if N.eqb x 13 then [92; 114]%N
  else if N.eqb x 34 then [92; 34]%N
  else if N.eqb x 92 then [92; 92]%N
  else if N.ltb x 32 || is_high_surrogate x || is_low_surrogate x
       then unicode_escape x
  else [x].

(** The code points of a string, quoted one after the other; a surrogate
    pair goes through as it is. *)
Fixpoint quote_body (s : jsstring) : jsstring :=
  match s with
  | [] => []
  | x :: rest =>
      if is_high_surrogate x then
        match rest with
        | y :: rest' =>
            if is_low_surrogate y then x :: y :: quote_body rest'
            else quote_unit x ++ quote_body rest
        | [] => quote_unit x
        end
      else quote_unit x ++ quote_body rest
  end.

(** [QuoteJSONString] *)
Definition quote (s : jsstring) : jsstring := 34%N :: quote_body s ++ [34%N].

Fixpoint join_comma (texts : list jsstring) : jsstring :=
  match texts with
  | [] => []
  | [t] => t
  | t :: more => t ++ 44%N :: join_comma more
  end.

Fixpoint stringify (v : value) : option jsstring :=
  match v with
  | JNull => Some (js "null")
  | JBool true => Some (js "true")
  | JBool false => Some (js "false")
  | JString s => Some (quote s)
  | JArray elements =>
      match
        (fix each (l : list value) : option (list jsstring) :=
           match l with
           | [] => Some []
           | x :: l' =>
               match stringify x, each l' with
               | Some t, Some ts => Some (t :: ts)
               | _, _ => None
               end
           end) elements
      with
      | Some texts => Some (91%N :: join_comma texts ++ [93%N])
      | None => None
      end
  | JNumber _ => None
  | JObject _ => None
  end.

End Stringify.

(** ** [CreateNote]: saving, downloading and persisting the drafts *)

Module Drafts.
Import CreateNote.

(** The strings a string spreads into: one per code point. *)
Fixpoint code_points (s : jsstring) : list jsstring :=
  match s with
  | [] => []
  | x :: rest =>
      if Stringify.is_high_surrogate x then
        match rest with
        | y :: rest' =>
            if Stringify.is_low_surrogate y then [x; y] :: code_points rest'
            else [x] :: code_points rest
        | [] => [[x]]
        end
      else [x] :: code_points rest
  end.

(** [[...savedNotes]]: the elements of an array, the code points of a
    string; nothing else is iterable. *)
Definition spread (v : JSON.value) : outcome (list JSON.value) :=
  match v with
  | JSON.JArray notes => Returned notes
  | JSON.JString s => Returned (JSON.JString <$> code_points s)
  | _ => TypeError
  end.

Definition handleSave (st : State) : outcome State :=
  match spread (savedNotes st) with
  | Returned notes =>
      Returned
        (setInput [] (setSavedNotes (JSON.JArray (notes ++ [JSON.JString (input st)])) st))
  | TypeError => TypeError
  end.

(** The render of the saved notes, [savedNotes.map((note, index) => ...)]:
    one entry for each note with its index; on anything but an array the
    call of [map] throws a TypeError. *)
Definition render_notes (st : State) : outcome (list (nat * JSON.value)) :=
  match savedNotes st with
  | JSON.JArray notes => Returned (imap pair notes)
  | _ => TypeError
  end.

(** The file [handleDownload] hands to the browser. *)
Record Download := {
  body : jsstring;
  type : jsstring;
  download : jsstring
}.

(** [handleDownload], where [JSON.stringify] is embedded. *)
Definition handleDownload (st : State) : option Download :=
  match Stringify.stringify (savedNotes st) with
  | Some text =>
      Some {| body := text; type := js "application/json";
              download := js "saved_notes.json" |}
  | None => None
  end.

(** [localStorage]: a map from keys to strings. *)
Abbreviation Storage := (gmap jsstring jsstring).

(** The mount effect returns, or [JSON.parse] throws in it. *)
Inductive mounted :=
| Mounted (st : State)
| SyntaxErrorThrown.

(** The effect that loads the saved notes when the component mounts.  An
    absent key and an empty string are both falsy. *)
Definition load_effect (storage : Storage) (st : State) : mounted :=
  match storage !! js "savedNotes" with
  | None => Mounted st
  | Some [] => Mounted st
  | Some savedNotesString =>
      match JSON.parse savedNotesString with
      | Some parsedNotes => Mounted (setSavedNotes parsedNotes st)
      | None => SyntaxErrorThrown
      end
  end.

(** The effect that stores the saved notes whenever they change, where
    [JSON.stringify] is embedded. *)
Definition save_effect (st : State) (storage : Storage) : option Storage :=
  match Stringify.stringify (savedNotes st) with
  | Some text => Some (<[js "savedNotes" := text]> storage)
  | None => None
  end.

End Drafts.

(** ** [App]: the log of subscriptions *)

Module Subscriptions.
Import App.

(** Does a subscription ask for the feed (no authors named)? *)
Definition is_feed (filters : list Filter) : bool :=
  existsb (λ f, bool_decide (authors f = None)) filters.

(** Reads a log of requests with the feed subscription open or not: a feed
    subscription must find none open, an unsub must find one open.  The
    result is whether one is open at the end, or [None] when the log breaks
    the rule. *)
Fixpoint bracket (open : bool) (log : list request) : option bool :=
  match log with
  | [] => Some open
  | Unsub :: rest => if open then bracket false rest else None
  | Sub _ filters :: rest =>
      if is_feed filters
      then if open then None else bracket true rest
      else bracket open rest
  end.

End Subscriptions.

(** * Properties *)

(** ** The ordered feed *)

Section FeedProperties.
Import Feed.

Implicit Types (feed : Feed) (item : Item).

Lemma has_id_occurs feed item : has_id feed item = true ↔ occurs feed item.
Proof.
  unfold has_id, occurs. rewrite existsb_exists. split.
  - intros (x & Hin & Heq). exists x. split.
    + by apply list_elem_of_In.
    + by apply bool_decide_eq_true in Heq.
  - intros (x & Hin & Heq). exists x. split.
    + by apply list_elem_of_In.
    + by apply bool_decide_eq_true.
Qed.

Lemma has_id_false feed item :
  has_id feed item = false ↔ Event.id item ∉ Event.id <$> feed.
Proof.
  rewrite <- not_true_iff_false, has_id_occurs. unfold occurs.
  rewrite list_elem_of_fmap. split.
  - intros Hno (x & Heq & Hin). apply Hno. eauto.
  - intros Hno (x & Hin & Heq). apply Hno. eauto.
Qed.

(** The scan splits the feed in two and puts the item in between. *)
Lemma scan_split feed item :
  ∃ before after,
    feed = before ++ after
    ∧ insert_before_first_smaller feed item = before ++ item :: after
    ∧ Forall (λ x, timestamp item <= timestamp x) before
    ∧ match after with
      | [] => True
      | y :: _ => timestamp y < timestamp item
      end.
Proof.
  induction feed as [|x rest IH]; simpl.
  - exists [], []. by repeat split.
  - destruct (Z.ltb_spec (timestamp x) (timestamp item)) as [Hlt|Hge].
    + exists [], (x :: rest). by repeat split.
    + destruct IH as (before & after & -> & Hins & Hall & Hafter).
      exists (x :: before), after. rewrite Hins.
      repeat split; [by constructor | done].
Qed.

Lemma scan_elem_of feed item x :
  x ∈ insert_before_first_smaller feed item ↔ x = item ∨ x ∈ feed.
Proof.
  destruct (scan_split feed item) as (before & after & -> & -> & _).
  rewrite !elem_of_app, elem_of_cons. tauto.
Qed.

Lemma scan_ids feed item :
  Event.id <$> insert_before_first_smaller feed item
  ≡ₚ Event.id item :: (Event.id <$> feed).
Proof.
  destruct (scan_split feed item) as (before & after & -> & -> & _).
  rewrite !fmap_app, fmap_cons. by rewrite Permutation_middle.
Qed.

Lemma insert_elem_of feed item x :
  x ∈ insertEventIntoDescendingList feed item → x = item ∨ x ∈ feed.
Proof.
  unfold insertEventIntoDescendingList. destruct (has_id feed item).
  - by right.
  - by rewrite scan_elem_of.
Qed.

Lemma insert_has_id feed item :
  has_id (insertEventIntoDescendingList feed item) item = true.
Proof.
  unfold insertEventIntoDescendingList.
  destruct (has_id feed item) eqn:Hid; [done|].
  apply has_id_occurs. exists item. split; [|done].
  apply scan_elem_of. by left.
Qed.

(** The sort invariant, by the head of the feed. *)
Lemma sorted_desc_nil : sorted_desc [].
Proof. intros i a b Ha. by rewrite lookup_nil in Ha. Qed.

Lemma sorted_desc_singleton item : sorted_desc [item].
Proof. intros i a b _ Hb. by destruct i. Qed.

Lemma sorted_desc_cons a b rest :
  sorted_desc (a :: b :: rest) ↔ timestamp b <= timestamp a ∧ sorted_desc (b :: rest).
Proof.
  split.
  - intros Hs. split.
    + specialize (Hs 0%nat a b eq_refl eq_refl). lia.
    + intros i x y Hx Hy. by apply (Hs (S i)).
  - intros [Hab Hs] [|i] x y Hx Hy.
    + simpl in *. simplify_eq. lia.
    + by apply (Hs i).
Qed.

Lemma sorted_desc_tail a rest : sorted_desc (a :: rest) → sorted_desc rest.
Proof.
  destruct rest as [|b rest]; [intros; apply sorted_desc_nil|].
  by intros [_ ?]%sorted_desc_cons.
Qed.

Lemma sorted_descb_spec feed : sorted_descb feed = true ↔ sorted_desc feed.
Proof.
  induction feed as [|a [|b rest] IH].
  - split; [intros; apply sorted_desc_nil | done].
  - split; [intros; apply sorted_desc_singleton | done].
  - rewrite sorted_desc_cons, <- IH. cbn [sorted_descb].
    rewrite andb_true_iff, Z.leb_le. tauto.
Qed.

(** In a sorted feed the head bounds every item. *)
Lemma sorted_desc_head a rest :
  sorted_desc (a :: rest) → Forall (λ x, timestamp x <= timestamp a) rest.
Proof.
  revert a. induction rest as [|b rest IH]; intros a Hs; [constructor|].
  apply sorted_desc_cons in Hs as [Hab Hs]. constructor; [done|].
  eapply Forall_impl; [by apply IH|]. simpl. intros; lia.
Qed.

Lemma scan_sorted feed item :
  sorted_desc feed → sorted_desc (insert_before_first_smaller feed item).
Proof.
  induction feed as [|x rest IH]; intros Hs; simpl.
  - apply sorted_desc_singleton.
  - destruct (Z.ltb_spec (timestamp x) (timestamp item)) as [Hlt|Hge].
    + apply sorted_desc_cons. split; [lia | done].
    + specialize (IH (sorted_desc_tail _ _ Hs)).
      destruct rest as [|y rest]; simpl in *.
      * apply sorted_desc_cons. split; [lia | done].
      * apply sorted_desc_cons in Hs as [Hyx Hs].
        destruct (Z.ltb_spec (timestamp y) (timestamp item)).
        -- apply sorted_desc_cons. split; [lia | done].
        -- apply sorted_desc_cons. split; [lia | done].
Qed.

Lemma unique_ids_NoDup feed : unique_ids feed ↔ NoDup (Event.id <$> feed).
Proof.
  rewrite NoDup_alt. unfold unique_ids. split.
  - intros Hu i j k Hi Hj. rewrite list_lookup_fmap in Hi, Hj.
    destruct (feed !! i) as [a|] eqn:Ha; [|done].
    destruct (feed !! j) as [b|] eqn:Hb; [|done].
    simpl in *. simplify_eq. by eapply Hu.
  - intros Hn i j a b Ha Hb Heq.
    apply (Hn i j (Event.id a)); rewrite list_lookup_fmap.
    + by rewrite Ha.
    + rewrite Hb. simpl. by rewrite Heq.
Qed.

Lemma insert_sorted feed item :
  sorted_desc feed → sorted_desc (insertEventIntoDescendingList feed item).
Proof.
  intros Hs. unfold insertEventIntoDescendingList.
  destruct (has_id feed item); [done | by apply scan_sorted].
Qed.

Lemma insert_unique feed item :
  unique_ids feed → unique_ids (insertEventIntoDescendingList feed item).
Proof.
  rewrite !unique_ids_NoDup. intros Hn. unfold insertEventIntoDescendingList.
  destruct (has_id feed item) eqn:Hid; [done|].
  rewrite scan_ids. apply NoDup_cons. split; [|done].
  by apply has_id_false.
Qed.

Lemma foldl_insert_invariants arrivals feed :
  feed_invariants feed →
  feed_invariants (foldl insertEventIntoDescendingList feed arrivals).
Proof.
  revert feed. induction arrivals as [|item arrivals IH]; intros feed [Hs Hu]; simpl.
  - by split.
  - apply IH. split; [by apply insert_sorted | by apply insert_unique].
Qed.

Lemma foldl_insert_elem_of arrivals feed x :
  x ∈ foldl insertEventIntoDescendingList feed arrivals → x ∈ feed ∨ x ∈ arrivals.
Proof.
  revert feed. induction arrivals as [|item arrivals IH]; intros feed Hx; simpl in *.
  - by left.
  - apply IH in Hx as [Hx|Hx].
    + apply insert_elem_of in Hx as [->|Hx]; [right; left | by left].
    + right. by right.
Qed.

End FeedProperties.

Import Feed.

Lemma sorted_desc_suffix (before after : Feed) :
  sorted_desc (before ++ after) → sorted_desc after.
Proof.
  induction before as [|x before IH]; simpl; [done|].
  intros Hs. apply IH. by eapply sorted_desc_tail.
Qed.

(** In a sorted feed, the items after the insertion point are all strictly
    older than the inserted item. *)
Lemma sorted_desc_after (after : Feed) (item : Item) :
  sorted_desc after →
  match after with
  | [] => True
  | y :: _ => timestamp y < timestamp item
  end →
  Forall (λ y, timestamp y < timestamp item) after.
Proof.
  destruct after as [|y after]; intros Hs Hy; constructor; [done|].
  eapply Forall_impl; [by apply sorted_desc_head|]. simpl. intros; lia.
Qed.

(** C1.  When an item with the id of [item] already occurs anywhere in the
    feed, [insert(feed, item)] returns the feed as it is, same items in the
    same order (this holds of every feed, so in particular of those that
    satisfy the feed invariants); and inserting an item a second time
    yields the same feed as inserting it once. *)
Theorem insert_duplicate_is_noop :
  (∀ (feed : Feed) (item : Item),
     occurs feed item → insertEventIntoDescendingList feed item = feed)
  ∧ (∀ (feed : Feed) (item : Item),
       insertEventIntoDescendingList (insertEventIntoDescendingList feed item) item
       = insertEventIntoDescendingList feed item).
Proof.
  split.
  - intros feed item Hocc%has_id_occurs.
    unfold insertEventIntoDescendingList. by rewrite Hocc.
  - intros feed item.
    unfold insertEventIntoDescendingList at 1. by rewrite insert_has_id.
Qed.

(** The feed with timestamps 300, 200, 100 and ids 1, 2, 3: inserting id 2
    again leaves it as it is. *)
Lemma insert_duplicate_is_noop_witness :
  occurs [item "1" 300; item "2" 200; item "3" 100] (item "2" 200)
  ∧ insertEventIntoDescendingList
      [item "1" 300; item "2" 200; item "3" 100] (item "2" 200)
    = [item "1" 300; item "2" 200; item "3" 100].
Proof.
  assert (Hocc : occurs [item "1" 300; item "2" 200; item "3" 100] (item "2" 200)).
  { exists (item "2" 200). split; [|reflexivity].
    apply elem_of_cons. right. apply elem_of_cons. by left. }
  split; [exact Hocc|].
  exact (proj1 insert_duplicate_is_noop _ _ Hocc).
Defined.

(** C2.  Items arrive one at a time into an initially empty feed.  After
    each insert (after the first [n] arrivals, for every [n]) every adjacent
    pair (a, b) of the feed, a before b, has [a.timestamp >= b.timestamp],
    and no two elements of the feed share an id. *)
Theorem ingest_sorted_and_unique (arrivals : list Item) (n : nat) :
  sorted_desc (ingest (take n arrivals))
  ∧ unique_ids (ingest (take n arrivals)).
Proof.
  apply foldl_insert_invariants. split.
  - apply sorted_desc_nil.
  - apply unique_ids_NoDup. constructor.
Qed.

(** C3.  A new item goes immediately before the first existing item with a
    strictly smaller timestamp: the feed splits into [before] and [after],
    the item sits between them, everything in [before] is at least as new
    as the item, and [after] is empty or starts with a strictly older item.
    In a sorted feed all of [after] is strictly older, so every existing
    item with the same timestamp is in [before]: a newly arriving item comes
    after the known items it ties with.  A (id 1, ts 100) then B (id 2,
    ts 100) give [A, B]; C (id 3, ts 100) next gives [A, B, C]. *)
Theorem insert_after_known_ties :
  (∀ (feed : Feed) (item : Item),
     ¬ occurs feed item →
     ∃ before after,
       feed = before ++ after
       ∧ insertEventIntoDescendingList feed item = before ++ item :: after
       ∧ Forall (λ x, timestamp item <= timestamp x) before
       ∧ match after with
         | [] => True
         | y :: _ => timestamp y < timestamp item
         end
       ∧ (sorted_desc feed → Forall (λ y, timestamp y < timestamp item) after))
  ∧ ingest [item "1" 100; item "2" 100] = [item "1" 100; item "2" 100]
  ∧ insertEventIntoDescendingList
      (ingest [item "1" 100; item "2" 100]) (item "3" 100)
    = [item "1" 100; item "2" 100; item "3" 100].
Proof.
  split; [|split; reflexivity].
  intros feed item Hno.
  destruct (scan_split feed item) as (before & after & Hfeed & Hins & Hb & Ha).
  exists before, after. unfold insertEventIntoDescendingList.
  destruct (has_id feed item) eqn:Hid.
  - exfalso. by apply Hno, has_id_occurs.
  - repeat split; try done.
    intros Hs. apply sorted_desc_after; [|done].
    apply (sorted_desc_suffix before). by rewrite <- Hfeed.
Qed.

(** D (id 4, ts 100) arrives at the feed [X (ts 200), A (ts 100), Y (ts 50)]
    and goes between A and Y. *)
Lemma insert_after_known_ties_witness :
  ¬ occurs [item "x" 200; item "1" 100; item "y" 50] (item "4" 100)
  ∧ ∃ before after,
      [item "x" 200; item "1" 100; item "y" 50] = before ++ after
      ∧ insertEventIntoDescendingList
          [item "x" 200; item "1" 100; item "y" 50] (item "4" 100)
        = before ++ item "4" 100 :: after
      ∧ Forall (λ x, timestamp (item "4" 100) <= timestamp x) before
      ∧ match after with
        | [] => True
        | y :: _ => timestamp y < timestamp (item "4" 100)
        end
      ∧ (sorted_desc [item "x" 200; item "1" 100; item "y" 50] →
         Forall (λ y, timestamp y < timestamp (item "4" 100)) after).
Proof.
  assert (Hno : ¬ occurs [item "x" 200; item "1" 100; item "y" 50] (item "4" 100)).
  { intros Hocc%has_id_occurs. vm_compute in Hocc. discriminate. }
  split; [exact Hno|].
  exact (proj1 insert_after_known_ties _ _ Hno).
Defined.

Example tie_break_middle :
  insertEventIntoDescendingList
    [item "x" 200; item "1" 100; item "y" 50] (item "4" 100)
  = [item "x" 200; item "1" 100; item "4" 100; item "y" 50].
Proof. reflexivity. Qed.

Example out_of_order_arrival :
  Event.created_at <$> ingest [item "a" 50; item "b" 200; item "c" 100]
  = [200; 100; 50].
Proof. reflexivity. Qed.

(** ** JSON.parse: the fuel is enough *)

Section JsonFuel.
Import JSON.

Lemma skip_ws_length (s : list N) : (length (skip_ws s) ≤ length s)%nat.
Proof.
  induction s as [|x s IH]; simpl; [done|].
  destruct (is_ws x); simpl; lia.
Qed.

Lemma skip_ws_cons (s rest : list N) (x : N) :
  skip_ws s = x :: rest → (length rest < length s)%nat.
Proof.
  intros Hs. pose proof (skip_ws_length s) as Hl.
  rewrite Hs in Hl. simpl in Hl. lia.
Qed.

Lemma cons_char_parsed (x : N) (res : parse_result jsstring) str r :
  cons_char x res = Parsed str r → ∃ str', res = Parsed str' r.
Proof. destruct res; simpl; intros; simplify_eq; eauto. Qed.

Lemma string_body_length (s : list N) :
  ∀ (str : jsstring) (r : list N),
    string_body s = Parsed str r → (length r < length s)%nat.
Proof.
  remember (length s) as n eqn:Hn. revert s Hn.
  induction n as [n IH] using lt_wf_ind. intros s -> str r.
  destruct s as [|x rest]; simpl; [done|].
  repeat case_match; try done; intros Hp; simplify_eq; simpl; try lia;
    apply cons_char_parsed in Hp as [str' Hp];
    (eapply IH in Hp; [|  | reflexivity]; simpl in *; lia).
Qed.

Lemma digits_length (s : list N) :
  (length (digits s).2 ≤ length s)%nat.
Proof.
  induction s as [|x s IH]; simpl; [done|].
  destruct (is_digit x); simpl; [|lia].
  destruct (digits s); simpl in *. lia.
Qed.

Lemma int_part_length (s ds r : list N) :
  int_part s = Some (ds, r) → (length r < length s)%nat.
Proof.
  destruct s as [|x s]; simpl; [done|].
  pose proof (digits_length s) as Hd.
  repeat case_match; intros; simplify_eq; simpl in *; lia.
Qed.

Lemma frac_part_length (s ds r : list N) :
  frac_part s = Some (ds, r) → (length r ≤ length s)%nat.
Proof.
  destruct s as [|x s]; simpl; [intros; simplify_eq; done|].
  pose proof (digits_length s) as Hd.
  repeat case_match; intros; simplify_eq; simpl in *; lia.
Qed.

Lemma exp_part_length (s ds r : list N) :
  exp_part s = Some (ds, r) → (length r ≤ length s)%nat.
Proof.
  destruct s as [|x s]; simpl; [intros; simplify_eq; done|].
  destruct (is_char "e" x || is_char "E" x); [|intros; simplify_eq; simpl; lia].
  destruct (exp_sign s) as [sg r1] eqn:Hsg.
  assert (length r1 ≤ length s)%nat as Hr1.
  { unfold exp_sign in Hsg. repeat case_match; simplify_eq; simpl; lia. }
  pose proof (digits_length r1) as Hd.
  repeat case_match; intros; simplify_eq; simpl in *; lia.
Qed.

Lemma number_length (s r : list N) (lit : jsstring) :
  number s = Parsed lit r → (length r < length s)%nat.
Proof.
  unfold number. destruct (minus_sign s) as [sg s1] eqn:Hsg.
  assert (length s1 ≤ length s)%nat as Hs1.
  { unfold minus_sign in Hsg. repeat case_match; simplify_eq; simpl; lia. }
  destruct (int_part s1) as [[ip s2]|] eqn:Hip; [|done].
  destruct (frac_part s2) as [[fp s3]|] eqn:Hfp; [|done].
  destruct (exp_part s3) as [[ep s4]|] eqn:Hep; [|done].
  intros; simplify_eq.
  apply int_part_length in Hip. apply frac_part_length in Hfp.
  apply exp_part_length in Hep. lia.
Qed.

Lemma number_fuel (s : list N) : number s ≠ OutOfFuel.
Proof. unfold number. by repeat case_match. Qed.

Lemma string_body_fuel (s : list N) : string_body s ≠ OutOfFuel.
Proof.
  remember (length s) as n eqn:Hn. revert s Hn.
  induction n as [n IH] using lt_wf_ind. intros s ->.
  destruct s as [|x rest]; simpl; [done|].
  assert (∀ c t, (length t < length (x :: rest))%nat →
                 cons_char c (string_body t) ≠ OutOfFuel) as Hc.
  { intros c t Ht. specialize (IH _ Ht t eq_refl).
    by destruct (string_body t). }
  repeat case_match; try done; apply Hc; subst; simpl; lia.
Qed.

Lemma strip_length (word s r : list N) :
  strip word s = Some r → (length r + length word = length s)%nat.
Proof.
  revert s. induction word as [|w word IH]; intros [|x s]; simpl;
    intros Hs; simplify_eq; simpl; try lia.
  destruct (N.eqb w x); [|done]. apply IH in Hs. lia.
Qed.

Lemma literal_length (s r : list N) (v : value) :
  literal s = Parsed v r → (length r < length s)%nat.
Proof.
  unfold literal. repeat case_match; intros; simplify_eq;
    match goal with H : strip _ _ = Some _ |- _ => apply strip_length in H end;
    simpl in *; lia.
Qed.

Lemma literal_fuel (s : list N) : literal s ≠ OutOfFuel.
Proof. unfold literal. by repeat case_match. Qed.

(** Turn what is known of the parsers' results into facts on lengths. *)
Ltac json_lengths Hv He Hm Fv Fe Fm :=
  repeat match goal with
    | H : JSON.skip_ws _ = _ :: _ |- _ => apply skip_ws_cons in H
    | H : JSON.string_body _ = JSON.Parsed _ _ |- _ => apply string_body_length in H
    | H : JSON.string_body _ = JSON.OutOfFuel |- _ => by apply string_body_fuel in H
    | H : JSON.number _ = JSON.Parsed _ _ |- _ => apply number_length in H
    | H : JSON.number _ = JSON.OutOfFuel |- _ => by apply number_fuel in H
    | H : JSON.literal _ = JSON.Parsed _ _ |- _ => apply literal_length in H
    | H : JSON.literal _ = JSON.OutOfFuel |- _ => by apply literal_fuel in H
    | H : JSON.parse_value _ _ = JSON.Parsed _ _ |- _ => apply Hv in H
    | H : JSON.parse_elements _ _ = JSON.Parsed _ _ |- _ => apply He in H
    | H : JSON.parse_members _ _ = JSON.Parsed _ _ |- _ => apply Hm in H
    | H : JSON.parse_value _ _ = JSON.OutOfFuel |- _ => apply Fv in H
    | H : JSON.parse_elements _ _ = JSON.OutOfFuel |- _ => apply Fe in H
    | H : JSON.parse_members _ _ = JSON.OutOfFuel |- _ => apply Fm in H
    end;
  simpl in *; try done; try lia.

Lemma parse_fuel (fuel : nat) :
  (∀ s, (∀ v r, parse_value fuel s = Parsed v r → (length r < length s)%nat)
        ∧ ((2 * length s < fuel)%nat → parse_value fuel s ≠ OutOfFuel))
  ∧ (∀ s, (∀ vs r, parse_elements fuel s = Parsed vs r → (length r < length s)%nat)
        ∧ ((2 * length s + 1 < fuel)%nat → parse_elements fuel s ≠ OutOfFuel))
  ∧ (∀ s, (∀ ms r, parse_members fuel s = Parsed ms r → (length r < length s)%nat)
        ∧ ((2 * length s + 1 < fuel)%nat → parse_members fuel s ≠ OutOfFuel)).
Proof.
  induction fuel as [|fuel (IHv & IHe & IHm)].
  { repeat split; intros; simpl in *; try done; lia. }
  assert (∀ s v r, parse_value fuel s = Parsed v r → (length r < length s)%nat)
    as Hv by (intros s; apply IHv).
  assert (∀ s vs r, parse_elements fuel s = Parsed vs r → (length r < length s)%nat)
    as He by (intros s; apply IHe).
  assert (∀ s ms r, parse_members fuel s = Parsed ms r → (length r < length s)%nat)
    as Hm by (intros s; apply IHm).
  assert (∀ s, parse_value fuel s = OutOfFuel → (fuel ≤ 2 * length s)%nat) as Fv.
  { intros s Hs. destruct (IHv s) as [_ Hno].
    destruct (decide (2 * length s < fuel)%nat) as [Hlt|]; [by apply Hno in Hlt | lia]. }
  assert (∀ s, parse_elements fuel s = OutOfFuel → (fuel ≤ 2 * length s + 1)%nat) as Fe.
  { intros s Hs. destruct (IHe s) as [_ Hno].
    destruct (decide (2 * length s + 1 < fuel)%nat) as [Hlt|]; [by apply Hno in Hlt | lia]. }
  assert (∀ s, parse_members fuel s = OutOfFuel → (fuel ≤ 2 * length s + 1)%nat) as Fm.
  { intros s Hs. destruct (IHm s) as [_ Hno].
    destruct (decide (2 * length s + 1 < fuel)%nat) as [Hlt|]; [by apply Hno in Hlt | lia]. }
  clear IHv IHe IHm.
  split; [|split]; intros s.
  - cbn [parse_value]. destruct (skip_ws s) as [|x rest] eqn:Hws; [done|].
    split; [intros v r Hp | intros Hf Hp]; repeat case_match; simplify_eq;
      json_lengths Hv He Hm Fv Fe Fm.
  - cbn [parse_elements].
    split; [intros v r Hp | intros Hf Hp]; repeat case_match; simplify_eq;
      json_lengths Hv He Hm Fv Fe Fm.
  - cbn [parse_members].
    split; [intros v r Hp | intros Hf Hp]; repeat case_match; simplify_eq;
      json_lengths Hv He Hm Fv Fe Fm.
Qed.

(** [JSON.parse] never runs out of fuel: it returns a value or throws. *)
Lemma document_fuel (text : jsstring) : document text ≠ OutOfFuel.
Proof.
  unfold document.
  destruct (parse_value (S (2 * length text)) text) as [v rest| |] eqn:Hp.
  - by destruct (skip_ws rest).
  - done.
  - exfalso. revert Hp. apply parse_fuel. lia.
Qed.

Lemma parse_None (text : jsstring) :
  document text = SyntaxError ↔ parse text = None.
Proof.
  unfold parse. pose proof (document_fuel text).
  by destruct (document text).
Qed.

Lemma parse_Some (text : jsstring) (v : value) :
  document text = Parsed v [] ↔ parse text = Some v.
Proof.
  unfold parse, document.
  destruct (parse_value _ text) as [v' rest| |]; [|done..].
  destruct (skip_ws rest); split; intros; by simplify_eq.
Qed.

End JsonFuel.

(** ** The [CreateNote] component *)

Import CreateNote.

Lemma filter_index_delete {A : Type} (l : list A) (from k : nat) :
  filter_index (λ index, negb (index =? from + k)%nat) from l = delete k l.
Proof.
  revert from k. induction l as [|x l IH]; intros from k; simpl; [done|].
  destruct k as [|k]; simpl.
  - replace (from + 0)%nat with from by lia. rewrite Nat.eqb_refl. simpl.
    clear IH. generalize (S from) (Nat.lt_succ_diag_r from).
    induction l as [|y l IH]; intros m Hm; simpl; [done|].
    destruct (Nat.eqb_spec m from) as [->|_]; [lia|]. simpl.
    f_equal. apply IH. lia.
  - destruct (Nat.eqb_spec from (from + S k)) as [Heq|_]; [lia|]. simpl.
    f_equal. replace (from + S k)%nat with (S from + k)%nat by lia. apply IH.
Qed.

Example restore_notes :
  handleRestore (Some (js "[" ++ [34%N] ++ js "a" ++ [34%N] ++ js "]")) initial
  = (setSavedNotes (JSON.JArray [JSON.JString (js "a")]) initial, []).
Proof. reflexivity. Qed.

Example restore_numbers :
  handleRestore (Some (js "[1, 2]")) initial
  = (setSavedNotes (JSON.JArray [JSON.JNumber (js "1"); JSON.JNumber (js "2")])
       initial, []).
Proof. reflexivity. Qed.

Example restore_garbage :
  handleRestore (Some (js "[1, 2")) initial
  = (initial, [Alert (js "Invalid JSON file.")]).
Proof. reflexivity. Qed.

(** C4.  The claim fails for a file that holds [42].  The text is
    well-formed JSON and is not a sequence of strings.  Restoring it raises
    no error and replaces the saved notes, here two drafts, by the number;
    the next render of the notes then throws a TypeError, as [map] is
    called on a number. *)
Theorem restore_accepts_a_number :
  string_sequence (js "42") = false
  ∧ handleRestore (Some (js "42"))
      (setSavedNotes (JSON.JArray (JSON.JString <$> [js "a"; js "b"])) initial)
    = (setSavedNotes (JSON.JNumber (js "42")) initial, [])
  ∧ handleRestore (Some (js "42"))
      (setSavedNotes (JSON.JArray (JSON.JString <$> [js "a"; js "b"])) initial)
    ≠ (setSavedNotes (JSON.JArray (JSON.JString <$> [js "a"; js "b"])) initial,
       [Alert (js "Invalid JSON file.")])
  ∧ Drafts.render_notes
      (handleRestore (Some (js "42"))
         (setSavedNotes (JSON.JArray (JSON.JString <$> [js "a"; js "b"])) initial)).1
    = TypeError.
Proof. repeat split; (reflexivity || (vm_compute; discriminate)). Qed.

(** C9.  Deleting the note that is being edited removes nothing: the notes
    stay as they are, the input is cleared and so is the edited index.
    Otherwise the note at the index is removed and nothing else changes.
    So the saved notes change only when the index differs from the edited
    one (or no note is being edited). *)
Theorem delete_edited_note_cancels_edit
    (notes : list JSON.value) (text : jsstring)
    (edited : option nat) (indexToDelete : nat) :
  (edited = Some indexToDelete →
   handleDelete indexToDelete
     {| input := text; savedNotes := JSON.JArray notes;
        editedNoteIndex := edited |}
   = Returned {| input := []; savedNotes := JSON.JArray notes;
                 editedNoteIndex := None |})
  ∧ (edited ≠ Some indexToDelete →
     handleDelete indexToDelete
       {| input := text; savedNotes := JSON.JArray notes;
          editedNoteIndex := edited |}
     = Returned {| input := text;
                   savedNotes := JSON.JArray (delete indexToDelete notes);
                   editedNoteIndex := edited |})
  ∧ (∀ st' : State,
       handleDelete indexToDelete
         {| input := text; savedNotes := JSON.JArray notes;
            editedNoteIndex := edited |} = Returned st' →
       savedNotes st' ≠ JSON.JArray notes →
       edited ≠ Some indexToDelete).
Proof.
  unfold handleDelete; simpl. split; [|split].
  - intros ->. by rewrite bool_decide_eq_true_2.
  - intros Hne. rewrite bool_decide_eq_false_2 by done.
    by rewrite <- (filter_index_delete notes 0 indexToDelete).
  - intros st' Hd Hchanged ->.
    rewrite bool_decide_eq_true_2 in Hd by done. by simplify_eq.
Qed.

(** Note 1 of three is being edited and is deleted. *)
Lemma delete_edited_note_cancels_edit_witness :
  handleDelete 1
    {| input := js "b, edited";
       savedNotes := JSON.JArray (JSON.JString <$> [js "a"; js "b"; js "c"]);
       editedNoteIndex := Some 1%nat |}
  = Returned {| input := [];
                savedNotes := JSON.JArray (JSON.JString <$> [js "a"; js "b"; js "c"]);
                editedNoteIndex := None |}.
Proof.
  exact (proj1 (delete_edited_note_cancels_edit
                  (JSON.JString <$> [js "a"; js "b"; js "c"])
                  (js "b, edited") (Some 1%nat) 1) eq_refl).
Defined.

Example edit_then_delete :
  handleEdit 1
    {| input := []; savedNotes := JSON.JArray (JSON.JString <$> [js "a"; js "b"]);
       editedNoteIndex := None |}
  = Some {| input := js "b";
            savedNotes := JSON.JArray (JSON.JString <$> [js "a"; js "b"]);
            editedNoteIndex := Some 1%nat |}
  ∧ handleDelete 1
      {| input := js "b";
         savedNotes := JSON.JArray (JSON.JString <$> [js "a"; js "b"]);
         editedNoteIndex := Some 1%nat |}
    = Returned {| input := [];
                  savedNotes := JSON.JArray (JSON.JString <$> [js "a"; js "b"]);
                  editedNoteIndex := None |}.
Proof. split; reflexivity. Qed.

Example delete_other_note :
  handleDelete 0
    {| input := js "b, edited";
       savedNotes := JSON.JArray (JSON.JString <$> [js "a"; js "b"; js "c"]);
       editedNoteIndex := Some 1%nat |}
  = Returned {| input := js "b, edited";
                savedNotes := JSON.JArray (JSON.JString <$> [js "b"; js "c"]);
                editedNoteIndex := Some 1%nat |}.
Proof. reflexivity. Qed.

(** [handlePublish] itself never changes the state: the input is cleared
    later, by the acknowledgement handler. *)
Lemma handlePublish_state getEventHash hashtags (w : Window) (st : State) :
  (handlePublish getEventHash hashtags w st).1.1 = st.
Proof. unfold handlePublish. by repeat case_match. Qed.

(** C6.  The signer is there and the user has confirmed, but the signer
    rejects the request (for the public key or for the signature).  The
    rejection is caught: the user is told "User rejected operation", nothing
    is published, and the state (the input and the edited-note index with
    it) is what it was. *)
Theorem publish_rejected_keeps_draft
    getEventHash hashtags (w : Window) (signer : Signer) (st : State) :
  nostr w = Some signer →
  confirm w (js "Are you sure you want to publish this note to Nostr?") = true →
  getPublicKey signer = Rejected
  ∨ signEvent signer (baseEvent (input st) hashtags (now w)) = Rejected →
  handlePublish getEventHash hashtags w st
  = (st, [Alert (js "User rejected operation")], None).
Proof.
  intros Hn Hc Hrej. unfold handlePublish. rewrite Hn, Hc. simpl.
  destruct Hrej as [-> | Hs]; [done|].
  rewrite Hs. by destruct (getPublicKey signer).
Qed.

(** A signer that hands out the public key and declines to sign. *)
Lemma publish_rejected_keeps_draft_witness :
  handlePublish (λ _ _, js "hash") [js "nostr"]
    {| nostr := Some {| getPublicKey := Resolved (js "pk");
                        signEvent := λ _, Rejected |};
       confirm := λ _, true;
       now := 1700000000000 |}
    {| input := js "a draft"; savedNotes := JSON.JArray [];
       editedNoteIndex := Some 0%nat |}
  = ({| input := js "a draft"; savedNotes := JSON.JArray [];
        editedNoteIndex := Some 0%nat |},
     [Alert (js "User rejected operation")], None).
Proof.
  apply (publish_rejected_keeps_draft _ _ _
           {| getPublicKey := Resolved (js "pk"); signEvent := λ _, Rejected |}).
  - reflexivity.
  - reflexivity.
  - right. reflexivity.
Defined.

Example publish_signed :
  handlePublish (λ _ _, js "hash") [js "nostr"]
    {| nostr := Some {| getPublicKey := Resolved (js "pk");
                        signEvent := λ _, Resolved (js "sig") |};
       confirm := λ _, true;
       now := 1700000000499 |}
    {| input := js "hello"; savedNotes := JSON.JArray [];
       editedNoteIndex := None |}
  = ({| input := js "hello"; savedNotes := JSON.JArray [];
        editedNoteIndex := None |},
     [Publish RELAYS
        {| Event.id := js "hash"; Event.pubkey := js "pk";
           Event.created_at := 1700000000; Event.kind := 1;
           Event.tags := [[js "t"; js "nostr"]];
           Event.content := js "hello"; Event.sig := js "sig" |}],
     Some {| clearedInput := false |}).
Proof. reflexivity. Qed.

Lemma occur_all_app (os1 os2 : list occurrence) (ps : Publication * State) :
  occur_all (os1 ++ os2) ps = occur_all os2 (occur_all os1 ps).
Proof. unfold occur_all. apply foldl_app. Qed.

Lemma occur_all_failed (failures : list jsstring) (ps : Publication * State) :
  occur_all (Failed <$> failures) ps = ps.
Proof. induction failures as [|relay failures IH]; [done | by simpl]. Qed.

Lemma occur_all_responses_cleared
    (answers : list (jsstring * bool)) (st : State) :
  occur_all (response <$> answers) ({| clearedInput := true |}, st)
  = ({| clearedInput := true |}, st).
Proof.
  induction answers as [|[relay ok] answers IH]; [done|].
  unfold occur_all in *. simpl. by destruct ok.
Qed.

(** After an acknowledgement the flag [clearedInput] is set. *)
Lemma on_ok_cleared (p : Publication) (st : State) :
  clearedInput (on_ok p st).1 = true.
Proof. unfold on_ok. by destruct (clearedInput p) eqn:Hc. Qed.

(** With the flag set, dropping the acknowledgements from what follows
    changes nothing. *)
Lemma occur_all_drop_oks (os : list occurrence) (p : Publication) (st : State) :
  clearedInput p = true →
  occur_all os (p, st) = occur_all (List.filter (λ o, negb (is_ok o)) os) (p, st).
Proof.
  revert st. induction os as [|o os IH]; intros st Hp; [done|].
  destruct o as [relay|relay|change]; simpl.
  - unfold on_ok. rewrite Hp. by apply IH.
  - by apply IH.
  - by apply IH.
Qed.

(** C7.  Relays answer a pending publish, each with an acknowledgement or a
    failure.  Failures before the first acknowledgement change nothing and
    stop nothing; the first acknowledgement clears the input and the
    edited-note index at once; and whatever the other relays answer after
    it, acknowledgement or failure, the outcome is the same. *)
Theorem publish_succeeds_on_first_ok
    (failures : list jsstring) (relay : jsstring)
    (later : list (jsstring * bool)) (st : State) :
  occur_all (Failed <$> failures) ({| clearedInput := false |}, st)
  = ({| clearedInput := false |}, st)
  ∧ occur_all ((Failed <$> failures) ++ [Ok relay])
      ({| clearedInput := false |}, st)
    = ({| clearedInput := true |},
       {| input := []; savedNotes := savedNotes st; editedNoteIndex := None |})
  ∧ occur_all ((Failed <$> failures) ++ Ok relay :: (response <$> later))
      ({| clearedInput := false |}, st)
    = ({| clearedInput := true |},
       {| input := []; savedNotes := savedNotes st; editedNoteIndex := None |}).
Proof.
  rewrite !occur_all_app, !occur_all_failed. split; [done|]. split; [done|].
  change (Ok relay :: (response <$> later))
    with ([Ok relay] ++ (response <$> later)).
  rewrite occur_all_app. apply occur_all_responses_cleared.
Qed.

(** C10.  The acknowledgement handler acts once per publish attempt.
    Running it again changes nothing; any number of acknowledgements leave
    the state the first one left; among whatever follows the first
    acknowledgement, the later acknowledgements can be dropped without
    changing the outcome; and input typed after the first acknowledgement
    is still there after any number of later ones. *)
Theorem ok_handler_runs_once :
  (∀ (p : Publication) (st : State),
     on_ok (on_ok p st).1 (on_ok p st).2 = on_ok p st)
  ∧ (∀ (relay : jsstring) (acks : list jsstring) (ps : Publication * State),
       occur_all (Ok relay :: (Ok <$> acks)) ps = occur ps (Ok relay))
  ∧ (∀ (before after : list occurrence) (relay : jsstring)
       (ps : Publication * State),
       occur_all (before ++ Ok relay :: after) ps
       = occur_all
           (before ++ Ok relay :: List.filter (λ o, negb (is_ok o)) after) ps)
  ∧ (∀ (before : list occurrence) (relay : jsstring) (text : jsstring)
       (acks : list jsstring) (ps : Publication * State),
       input (occur_all
                (before ++ Ok relay :: User (setInput text) :: (Ok <$> acks))
                ps).2
       = text).
Proof.
  assert (Hdrop : ∀ (before after : list occurrence) (relay : jsstring)
            (ps : Publication * State),
            occur_all (before ++ Ok relay :: after) ps
            = occur_all
                (before ++ Ok relay :: List.filter (λ o, negb (is_ok o)) after) ps).
  { intros before after relay ps. rewrite !occur_all_app.
    change (occur_all (Ok relay :: ?os) ?x) with (occur_all os (occur x (Ok relay))).
    simpl. destruct (on_ok _ _) as [p st] eqn:Hok.
    apply occur_all_drop_oks.
    change p with (p, st).1. rewrite <- Hok. apply on_ok_cleared. }
  assert (Hacks : ∀ acks : list jsstring,
            List.filter (λ o, negb (is_ok o)) (Ok <$> acks) = []).
  { induction acks as [|a acks IH]; [done | by simpl]. }
  split; [|split; [|split]].
  - intros p st. unfold on_ok. by destruct (clearedInput p) eqn:Hc; simpl; rewrite ?Hc.
  - intros relay acks ps.
    etrans; [exact (Hdrop [] (Ok <$> acks) relay ps)|].
    simpl. by rewrite Hacks.
  - exact Hdrop.
  - intros before relay text acks ps.
    rewrite (Hdrop before (User (setInput text) :: (Ok <$> acks)) relay ps).
    simpl. rewrite Hacks, occur_all_app. done.
Qed.

Example typed_after_first_ok :
  occur_all [Failed (js "r1"); Ok (js "r2"); User (setInput (js "next note"));
             Ok (js "r3"); Ok (js "r4")]
    ({| clearedInput := false |},
     {| input := js "first note"; savedNotes := JSON.JArray [];
        editedNoteIndex := Some 2%nat |})
  = ({| clearedInput := true |},
     {| input := js "next note"; savedNotes := JSON.JArray [];
        editedNoteIndex := None |}).
Proof. reflexivity. Qed.

(** ** The [App] component *)

Import App.

(** Unfold one step of the component and split on what it tests. *)
Ltac app_cases :=
  cbv [step subscription_cleanup subscription_effect metadata_effect on_event
       setPool setEvents setHashtags set_subscribed set_events
       set_metadataFetched];
  repeat (case_match; simpl in *; simplify_eq);
  simpl in *; try done; try congruence; try (intuition congruence).

Section AppProperties.

Implicit Types (st : App.State) (a : action) (actions : list action).

Lemma run_app st actions1 actions2 :
  run st (actions1 ++ actions2)
  = ((run (run st actions1).1 actions2).1,
     (run st actions1).2 ++ (run (run st actions1).1 actions2).2).
Proof.
  revert st. induction actions1 as [|a actions1 IH]; intros st; cbn [run app].
  - apply surjective_pairing.
  - destruct (step st a) as [st1 r1]. rewrite IH.
    destruct (run st1 actions1) as [st2 r2]. simpl.
    destruct (run st2 actions2) as [st3 r3]. simpl. by rewrite app_assoc.
Qed.

Lemma state_after_app st actions1 actions2 :
  state_after (actions1 ++ actions2) st
  = state_after actions2 (state_after actions1 st).
Proof. unfold state_after. by rewrite run_app. Qed.

Lemma state_after_cons st a actions :
  state_after (a :: actions) st = state_after actions (step st a).1.
Proof.
  unfold state_after. cbn [run]. destruct (step st a) as [st1 r1].
  cbn [fst]. by destruct (run st1 actions).
Qed.

Lemma step_no_pool_no_feed st a :
  no_pool_no_feed st → no_pool_no_feed (step st a).1.
Proof.
  unfold no_pool_no_feed. intros Hinv. destruct a as [|tags|event|]; app_cases.
Qed.

Lemma state_after_no_pool_no_feed st actions :
  no_pool_no_feed st → no_pool_no_feed (state_after actions st).
Proof.
  revert st. induction actions as [|a actions IH]; intros st Hinv; [done|].
  rewrite state_after_cons. by apply IH, step_no_pool_no_feed.
Qed.

(** A pool, once created, stays. *)
Lemma step_pool st a : pool st ≠ None → pool (step st a).1 ≠ None.
Proof. intros Hp. destruct a as [|tags|event|]; app_cases. Qed.

Lemma state_after_pool st actions :
  pool st ≠ None → pool (state_after actions st) ≠ None.
Proof.
  revert st. induction actions as [|a actions IH]; intros st Hp; [done|].
  rewrite state_after_cons. by apply IH, step_pool.
Qed.

Lemma pool_created st : pool (step st PoolCreated).1 ≠ None.
Proof. app_cases. Qed.

(** What a change of hashtags leaves: an empty feed, and a subscription
    when there is a pool. *)
Lemma hashtags_changed st tags :
  pool st ≠ None →
  eventsImmediate (step st (HashtagsChanged tags)).1 = []
  ∧ subscribed (step st (HashtagsChanged tags)).1 = true.
Proof. intros Hp. app_cases. Qed.

Lemma hashtags_changed_no_pool st tags :
  no_pool_no_feed st → pool st = None →
  eventsImmediate (step st (HashtagsChanged tags)).1 = []
  ∧ subscribed (step st (HashtagsChanged tags)).1 = false.
Proof. unfold no_pool_no_feed. intros Hinv Hp. app_cases. Qed.

Lemma events_received st (arrivals : list Event.t) :
  eventsImmediate (state_after (EventReceived <$> arrivals) st)
  = if subscribed st
    then foldl insertEventIntoDescendingList (eventsImmediate st) arrivals
    else eventsImmediate st.
Proof.
  revert st. induction arrivals as [|e arrivals IH]; intros st.
  - by destruct (subscribed st).
  - rewrite fmap_cons, state_after_cons, IH. app_cases.
Qed.

(** The feed of the component satisfies the feed invariants at all times. *)
Lemma step_feed_invariants st a :
  feed_invariants (eventsImmediate st) →
  feed_invariants (eventsImmediate (step st a).1).
Proof.
  assert (Hnil : feed_invariants []).
  { split; [apply sorted_desc_nil | apply unique_ids_NoDup; constructor]. }
  intros Hinv. destruct a as [|tags|event|]; app_cases.
  apply (foldl_insert_invariants [event]). done.
Qed.

Lemma app_feed_invariants actions :
  feed_invariants (eventsImmediate (state_after actions initial)).
Proof.
  assert (Hinit : feed_invariants (eventsImmediate initial)).
  { split; [apply sorted_desc_nil | apply unique_ids_NoDup; constructor]. }
  revert Hinit. generalize initial.
  induction actions as [|a actions IH]; intros st Hinv; [done|].
  rewrite state_after_cons. by apply IH, step_feed_invariants.
Qed.

End AppProperties.

(** C5.  A change of the hashtag set discards the feed before any new item
    is inserted: right after it the feed is empty, whatever happened before;
    after the arrivals that follow it, the feed holds nothing but those
    arrivals; and once the pool exists the feed is exactly what those
    arrivals build from an empty feed.  Items with ts 10 and ts 20, then a
    change of hashtags, then an item with ts 5: the feed holds the ts 5 item
    only. *)
Theorem filter_change_discards_feed
    (before after : list action) (tags : list jsstring)
    (arrivals : list Event.t) :
  eventsImmediate (state_after (after ++ [HashtagsChanged tags]) initial) = []
  ∧ eventsImmediate
      (state_after
         (after ++ HashtagsChanged tags :: (EventReceived <$> arrivals))
         initial)
    ⊆ arrivals
  ∧ eventsImmediate
      (state_after
         (before ++ PoolCreated :: after
            ++ HashtagsChanged tags :: (EventReceived <$> arrivals))
         initial)
    = ingest arrivals
  ∧ eventsImmediate
      (state_after
         [PoolCreated; EventReceived (item "a" 10); EventReceived (item "b" 20)]
         initial)
    = [item "b" 20; item "a" 10]
  ∧ eventsImmediate
      (state_after
         [PoolCreated; EventReceived (item "a" 10); EventReceived (item "b" 20);
          HashtagsChanged [js "nostr"]; EventReceived (item "c" 5)]
         initial)
    = [item "c" 5].
Proof.
  assert (Hinit : no_pool_no_feed initial) by done.
  assert (Hreset : ∀ st, no_pool_no_feed st →
            eventsImmediate (step st (HashtagsChanged tags)).1 = []).
  { intros st Hinv. destruct (pool st) eqn:Hp.
    - apply hashtags_changed. congruence.
    - by apply hashtags_changed_no_pool. }
  split; [|split; [|split; [|split; reflexivity]]].
  - rewrite state_after_app, state_after_cons. simpl state_after.
    apply Hreset. by apply state_after_no_pool_no_feed.
  - rewrite state_after_app, state_after_cons, events_received.
    pose proof (state_after_no_pool_no_feed initial after Hinit) as Hinv.
    rewrite (Hreset _ Hinv). destruct (subscribed _).
    + intros e He. apply foldl_insert_elem_of in He as [He|He]; [|done].
      by apply not_elem_of_nil in He.
    + intros e He. by apply not_elem_of_nil in He.
  - rewrite state_after_app, state_after_cons, state_after_app,
      state_after_cons, events_received.
    destruct (hashtags_changed
                (state_after after (step (state_after before initial) PoolCreated).1)
                tags) as [-> ->]; [|done].
    apply state_after_pool, pool_created.
Qed.

(** ** Metadata fetches *)

Section MetadataProperties.

Implicit Types (st : App.State) (m : gmap jsstring bool) (k : jsstring).

(** For a key other than [__proto__], the read of the object is the lookup
    of its own properties. *)
Lemma is_fetched_lookup m k :
  k ≠ proto_key → is_fetched m k = true ↔ m !! k = Some true.
Proof.
  intros Hk. unfold is_fetched. rewrite bool_decide_eq_false_2 by done.
  simpl. apply bool_decide_eq_true.
Qed.

(** The key [__proto__] never reads as fetched. *)
Lemma is_fetched_proto m : is_fetched m proto_key = false.
Proof. unfold is_fetched. by rewrite bool_decide_eq_true_2. Qed.

Lemma mark_fetched_lookup (pubkeys : list jsstring) m k :
  k ≠ proto_key →
  mark_fetched pubkeys m !! k = Some true
  ↔ k ∈ pubkeys ∨ m !! k = Some true.
Proof.
  intros Hk. unfold mark_fetched. revert m.
  induction pubkeys as [|p pubkeys IH]; intros m; simpl.
  - rewrite elem_of_nil. tauto.
  - rewrite IH, elem_of_cons. unfold assign_true. case_bool_decide as Hp.
    + subst p. intuition congruence.
    + destruct (decide (p = k)) as [->|Hne].
      * rewrite lookup_insert_eq. tauto.
      * rewrite lookup_insert_ne by done. intuition congruence.
Qed.

Lemma pubkeysToFetch_not_fetched st k :
  k ≠ proto_key →
  k ∈ pubkeysToFetch st → metadataFetched st !! k ≠ Some true.
Proof.
  intros Hk. unfold pubkeysToFetch. intros (e & -> & He)%list_elem_of_fmap.
  apply list_elem_of_In, filter_In in He as [_ Hnf].
  unfold not_fetched in Hnf. apply negb_true_iff in Hnf.
  intros Hm%(is_fetched_lookup _ _ Hk). congruence.
Qed.

Lemma metadata_fetches_app (r1 r2 : list request) :
  metadata_fetches (r1 ++ r2) = metadata_fetches r1 ++ metadata_fetches r2.
Proof. unfold metadata_fetches. apply bind_app. Qed.

Lemma fetches_of_app k (f1 f2 : list (list jsstring)) :
  fetches_of k (f1 ++ f2) = (fetches_of k f1 + fetches_of k f2)%nat.
Proof. unfold fetches_of. by rewrite List.filter_app, length_app. Qed.

(** The metadata effect asks for a key at most once, only if it is not
    recorded, and records what it asks for. *)
Lemma metadata_effect_fetch st k :
  k ≠ proto_key →
  (fetches_of k (metadata_fetches (metadata_effect st).2) ≤ 1)%nat
  ∧ (metadataFetched st !! k = Some true →
     fetches_of k (metadata_fetches (metadata_effect st).2) = 0%nat)
  ∧ (metadataFetched st !! k = Some true
     ∨ fetches_of k (metadata_fetches (metadata_effect st).2) = 1%nat →
     metadataFetched (metadata_effect st).1 !! k = Some true).
Proof.
  intros Hproto. unfold metadata_effect. destruct (pool st); simpl.
  - unfold fetches_of. simpl. case_bool_decide as Hk; simpl.
    + split; [lia|]. split.
      * intros Hm. by apply pubkeysToFetch_not_fetched in Hk.
      * intros _. apply mark_fetched_lookup; [done | by left].
    + split; [lia|]. split; [done|].
      intros [Hm|?]; [|done]. apply mark_fetched_lookup; [done | by right].
  - split; [unfold fetches_of; simpl; lia|]. split; [done|].
    by intros [?|?].
Qed.

(** A step makes no metadata fetch and records nothing, or it makes the
    fetch of one run of the metadata effect. *)
Lemma step_shape st a :
  (metadata_fetches (step st a).2 = []
   ∧ metadataFetched (step st a).1 = metadataFetched st)
  ∨ (∃ (st0 : App.State) (r : list request),
       metadataFetched st0 = metadataFetched st
       ∧ metadata_fetches r = []
       ∧ step st a = ((metadata_effect st0).1, r ++ (metadata_effect st0).2)).
Proof.
  destruct a as [|tags|event|].
  - right. destruct st as [p feed snapshot m tags [|]].
    + exists {| pool := Some new_SimplePool; eventsImmediate := [];
                events := snapshot; metadataFetched := m; hashtags := tags;
                subscribed := true |},
        [Unsub; Sub RELAYS [feed_filter tags]].
      repeat split; reflexivity.
    + exists {| pool := Some new_SimplePool; eventsImmediate := [];
                events := snapshot; metadataFetched := m; hashtags := tags;
                subscribed := true |},
        [Sub RELAYS [feed_filter tags]].
      repeat split; reflexivity.
  - left. app_cases.
  - left. app_cases.
  - right. exists (set_events (eventsImmediate st) st), [].
    split; [done|]. split; [done|]. cbn [step]. simpl.
    by destruct (metadata_effect _).
Qed.

Lemma step_fetch st a k :
  k ≠ proto_key →
  (fetches_of k (metadata_fetches (step st a).2) ≤ 1)%nat
  ∧ (metadataFetched st !! k = Some true →
     fetches_of k (metadata_fetches (step st a).2) = 0%nat)
  ∧ (metadataFetched st !! k = Some true
     ∨ fetches_of k (metadata_fetches (step st a).2) = 1%nat →
     metadataFetched (step st a).1 !! k = Some true).
Proof.
  intros Hproto.
  destruct (step_shape st a) as [[-> ->] | (st0 & r & Hm & Hr & ->)].
  - unfold fetches_of. simpl. split; [lia|]. split; [done|].
    intros [?|?]; [done | lia].
  - cbn [fst snd]. rewrite metadata_fetches_app, Hr, app_nil_l, <- Hm.
    by apply metadata_effect_fetch.
Qed.

Lemma run_fetch st (actions : list action) k :
  k ≠ proto_key →
  (fetches_of k (metadata_fetches (run st actions).2) ≤ 1)%nat
  ∧ (metadataFetched st !! k = Some true →
     fetches_of k (metadata_fetches (run st actions).2) = 0%nat)
  ∧ (metadataFetched st !! k = Some true
     ∨ fetches_of k (metadata_fetches (run st actions).2) = 1%nat →
     metadataFetched (run st actions).1 !! k = Some true).
Proof.
  intros Hproto. revert st. induction actions as [|a actions IH]; intros st.
  - unfold fetches_of. simpl. split; [lia|]. split; [done|].
    intros [?|?]; [done | lia].
  - cbn [run]. destruct (step_fetch st a k Hproto) as (Hle & Hzero & Hrec).
    destruct (step st a) as [st1 r1]. cbn [fst snd] in *.
    destruct (IH st1) as (Hle' & Hzero' & Hrec').
    destruct (run st1 actions) as [st2 r2]. cbn [fst snd] in *.
    rewrite metadata_fetches_app, fetches_of_app.
    split; [|split].
    + destruct (decide (fetches_of k (metadata_fetches r1) = 1%nat)) as [H1|H1].
      * rewrite Hzero' by (apply Hrec; by right). lia.
      * lia.
    + intros Hm. rewrite Hzero by done. rewrite Hzero' by (apply Hrec; by left).
      done.
    + intros [Hm|Hone].
      * apply Hrec'. left. apply Hrec. by left.
      * apply Hrec'.
        destruct (decide (fetches_of k (metadata_fetches r1) = 1%nat)) as [H1|H1].
        -- left. apply Hrec. by right.
        -- right. lia.
Qed.

End MetadataProperties.

Example metadata_session :
  metadata_fetches
    (run initial
       [PoolCreated; EventReceived (item "a" 10); EventReceived (item "b" 20);
        Debounced; EventReceived (item "c" 30); Debounced; Debounced]).2
  = [[]; [js "author"; js "author"]; []; []].
Proof. vm_compute. reflexivity. Qed.


(** * Further properties *)

(** ** JSON.stringify and JSON.parse *)

Section StringifyParse.
Import JSON Stringify.

Lemma hex_digit_hex_char (d : N) :
  (d < 16)%N → hex_digit (hex_char d) = Some d.
Proof.
  intros Hd. unfold hex_char, hex_digit, is_digit.
  destruct (N.ltb_spec d 10).
  - replace (N.leb 48 (d + 48)) with true by (symmetry; apply N.leb_le; lia).
    replace (N.leb (d + 48) 57) with true by (symmetry; apply N.leb_le; lia).
    simpl. f_equal. lia.
  - replace (N.leb (d + 87) 57) with false by (symmetry; apply N.leb_gt; lia).
    replace (N.leb (d + 87) 70) with false by (symmetry; apply N.leb_gt; lia).
    replace (N.leb 97 (d + 87)) with true by (symmetry; apply N.leb_le; lia).
    replace (N.leb (d + 87) 102) with true by (symmetry; apply N.leb_le; lia).
    rewrite !andb_false_r. simpl. f_equal. lia.
Qed.

Lemma hex4_unicode_escape (u : N) (rest : list N) :
  (u < 65536)%N →
  string_body (unicode_escape u ++ rest) = cons_char u (string_body rest).
Proof.
  intros Hu. unfold unicode_escape.
  change (string_body (_ ++ rest)) with
    (match hex4 (hex_char ((u / 4096) mod 16)) (hex_char ((u / 256) mod 16))
             (hex_char ((u / 16) mod 16)) (hex_char (u mod 16)) with
     | Some c => cons_char c (string_body rest)
     | None => SyntaxError
     end).
  unfold hex4. rewrite !hex_digit_hex_char by (apply N.mod_lt; lia).
  f_equal.
  pose proof (N.div_mod u 16). pose proof (N.div_mod (u / 16) 16).
  pose proof (N.div_mod (u / 256) 16).
  assert (u / 16 / 16 = u / 256)%N as H16 by (rewrite N.Div0.div_div; done).
  assert (u / 256 / 16 = u / 4096)%N as H256 by (rewrite N.Div0.div_div; done).
  assert (u / 4096 < 16)%N by (apply N.Div0.div_lt_upper_bound; lia).
  rewrite (N.mod_small (u / 4096) 16) by done.
  lia.
Qed.

(** A code unit that needs no escape is read as it is. *)
Lemma string_body_raw (x : N) (rest : list N) :
  x ≠ 34%N → x ≠ 92%N → (32 ≤ x)%N →
  string_body (x :: rest) = cons_char x (string_body rest).
Proof.
  intros Hq Hb Hc. cbn [string_body]. unfold is_quote, is_backslash.
  rewrite (proj2 (N.eqb_neq x 34)), (proj2 (N.eqb_neq x 92)) by done.
  by rewrite (proj2 (N.ltb_ge x 32)).
Qed.

Lemma string_body_quote_unit (x : N) (rest : list N) :
  string_body (quote_unit x ++ rest) = cons_char x (string_body rest).
Proof.
  unfold quote_unit.
  repeat (match goal with
          | |- context [N.eqb x ?c] => destruct (N.eqb_spec x c) as [->|?]; [done|]
          end).
  destruct (N.ltb_spec x 32) as [Hlt|Hge]; simpl orb.
  { apply hex4_unicode_escape. lia. }
  unfold is_high_surrogate, is_low_surrogate.
  destruct (N.leb_spec 55296 x), (N.leb_spec x 56319), (N.leb_spec 56320 x),
    (N.leb_spec x 57343); simpl;
    first [ apply hex4_unicode_escape; lia | by apply string_body_raw | lia ].
Qed.

(** Reading back a quoted string gives the string. *)
Lemma string_body_quote_body (s : jsstring) (rest : list N) :
  string_body (quote_body s ++ 34%N :: rest) = Parsed s rest.
Proof.
  remember (length s) as n eqn:Hn. revert s Hn.
  induction n as [n IH] using lt_wf_ind. intros s ->.
  destruct s as [|x s]; [done|]. cbn [quote_body].
  assert (Hunit : string_body ((quote_unit x ++ quote_body s) ++ 34%N :: rest)
                  = Parsed (x :: s) rest).
  { rewrite <- app_assoc, string_body_quote_unit.
    rewrite (IH (length s)); [done | simpl; lia | done]. }
  destruct (is_high_surrogate x) eqn:Hx; [|done].
  destruct s as [|y s]; [by rewrite app_nil_r in Hunit|].
  destruct (is_low_surrogate y) eqn:Hy; [|done].
  unfold is_high_surrogate, is_low_surrogate in Hx, Hy.
  apply andb_true_iff in Hx as [Hx1%N.leb_le Hx2%N.leb_le].
  apply andb_true_iff in Hy as [Hy1%N.leb_le Hy2%N.leb_le].
  cbn [app]. rewrite !string_body_raw by lia.
  rewrite (IH (length s)); [done | simpl; lia | done].
Qed.

(** Induction on values, with the elements of an array. *)
Lemma value_ind_elements (P : value → Prop) :
  P JNull → (∀ b, P (JBool b)) → (∀ lit, P (JNumber lit)) →
  (∀ str, P (JString str)) →
  (∀ elements, Forall P elements → P (JArray elements)) →
  (∀ members, P (JObject members)) →
  ∀ v, P v.
Proof.
  intros Hnull Hbool Hnum Hstr Harr Hobj. fix IH 1.
  intros [|b|lit|str|elements|members]; [done..| |done].
  apply Harr. induction elements as [|x elements IHel]; constructor.
  - apply IH.
  - apply IHel.
Qed.

Lemma stringify_array (elements : list value) :
  stringify (JArray elements)
  = match mapM stringify elements with
    | Some texts => Some (91%N :: join_comma texts ++ [93%N])
    | None => None
    end.
Proof.
  cbn [stringify].
  match goal with |- match ?f elements with _ => _ end = _ =>
    assert (f elements = mapM stringify elements) as ->; [|done] end.
  induction elements as [|x elements IH]; [done|].
  rewrite IH. cbn [mapM]. destruct (stringify x); [|done].
  simpl. by destruct (mapM stringify elements).
Qed.

(** A text of [stringify] starts with a character that is neither white
    space nor a closing bracket. *)
Lemma stringify_head (v : value) (t : jsstring) :
  stringify v = Some t →
  ∃ c tl, t = c :: tl ∧ is_ws c = false ∧ is_char "]" c = false.
Proof.
  destruct v as [|[|]|lit|str|elements|members]; try done.
  - intros [= <-]. by eexists _, _.
  - intros [= <-]. by eexists _, _.
  - intros [= <-]. by eexists _, _.
  - intros [= <-]. by eexists _, _.
  - rewrite stringify_array. destruct (mapM stringify elements); [|done].
    intros [= <-]. by eexists _, _.
Qed.

(** Reading the elements written by [stringify], up to the closing
    bracket. *)
Lemma parse_elements_join (elements : list value) (texts : list jsstring) :
  Forall2 (λ v t,
    stringify v = Some t
    ∧ ∀ fuel rest, parse_value fuel (t ++ rest) = OutOfFuel
                   ∨ parse_value fuel (t ++ rest) = Parsed v rest)
    elements texts →
  elements ≠ [] →
  ∀ fuel rest,
    parse_elements fuel (join_comma texts ++ 93%N :: rest) = OutOfFuel
    ∨ parse_elements fuel (join_comma texts ++ 93%N :: rest)
      = Parsed elements rest.
Proof.
  induction 1 as [|v t elements texts [Hs Hv] Hall IH]; [done|].
  intros _ [|fuel] rest; [by left|].
  cbn [parse_elements].
  destruct Hall as [|v' t' elements texts Hv' Hall].
  - cbn [join_comma]. destruct (Hv fuel (93%N :: rest)) as [->| ->]; [by left|].
    right. done.
  - change (join_comma (t :: t' :: texts))
      with (t ++ 44%N :: join_comma (t' :: texts)).
    rewrite <- app_assoc. cbn [app].
    destruct (Hv fuel (44%N :: join_comma (t' :: texts) ++ 93%N :: rest))
      as [->| ->]; [by left|].
    change (skip_ws (44%N :: ?l)) with (44%N :: l).
    change (is_char "]" 44%N) with false. change (is_char "," 44%N) with true.
    cbv iota.
    destruct (IH ltac:(done) fuel rest) as [->| ->]; [by left | by right].
Qed.

(** Reading what [stringify] wrote gives the value back, if the fuel
    lasts. *)
Lemma parse_value_stringify (v : value) :
  ∀ t, stringify v = Some t →
  ∀ fuel rest, parse_value fuel (t ++ rest) = OutOfFuel
               ∨ parse_value fuel (t ++ rest) = Parsed v rest.
Proof.
  induction v as [|b|lit|str|elements IH|members] using value_ind_elements;
    intros t Ht [|fuel] rest; try (by left); try done.
  - injection Ht as <-. by right.
  - destruct b; injection Ht as <-; by right.
  - injection Ht as <-. right. unfold quote. cbn [app parse_value skip_ws].
    simpl. rewrite <- app_assoc. cbn [app].
    by rewrite string_body_quote_body.
  - rewrite stringify_array in Ht.
    destruct (mapM stringify elements) as [texts|] eqn:Hm; [|done].
    injection Ht as <-. apply mapM_Some in Hm.
    assert (Forall2 (λ v t,
              stringify v = Some t
              ∧ ∀ fuel rest, parse_value fuel (t ++ rest) = OutOfFuel
                             ∨ parse_value fuel (t ++ rest) = Parsed v rest)
              elements texts) as Hall.
    { clear fuel rest. induction Hm as [|v t elements texts Hs Hm IHm];
        constructor.
      - split; [done|]. apply Forall_cons in IH as [Hv _]. by apply Hv.
      - apply IHm. by apply Forall_cons in IH as [_ ?]. }
    rewrite <- app_comm_cons, <- app_assoc. cbn [app parse_value].
    change (skip_ws (91%N :: ?l)) with (91%N :: l).
    change (is_char "[" 91%N) with true. cbv iota.
    destruct Hm as [|v t elements texts Hs Hm]; [by right|].
    destruct (stringify_head v t Hs) as (c & tl & -> & Hws & Hbr).
    assert (∃ l, join_comma ((c :: tl) :: texts) ++ 93%N :: rest = c :: l)
      as [l Hl] by (destruct texts; by eexists).
    destruct (parse_elements_join (v :: elements) ((c :: tl) :: texts)
                Hall ltac:(done) fuel rest) as [He|He]; rewrite He, Hl;
      cbn [skip_ws]; rewrite Hws, Hbr; [by left | by right].
Qed.

(** [JSON.parse(JSON.stringify(v))] is [v]. *)
Lemma parse_stringify (v : value) (t : jsstring) :
  stringify v = Some t → parse t = Some v.
Proof.
  intros Ht. apply parse_Some. unfold document.
  pose proof (parse_value_stringify v t Ht (S (2 * length t)) []) as Hp.
  rewrite app_nil_r in Hp. destruct Hp as [Hp|Hp].
  - exfalso. revert Hp. apply parse_fuel. lia.
  - by rewrite Hp.
Qed.

Lemma stringify_strings (notes : list jsstring) :
  stringify (JArray (JString <$> notes))
  = Some (91%N :: join_comma (quote <$> notes) ++ [93%N]).
Proof.
  rewrite stringify_array.
  assert (mapM stringify (JString <$> notes) = Some (quote <$> notes)) as ->;
    [|done].
  apply mapM_Some. induction notes; constructor; done.
Qed.

End StringifyParse.

(** ** [CreateNote]: download, restore and persistence *)

Import Drafts.

Lemma handleDownload_body (st : CreateNote.State) (d : Download) :
  handleDownload st = Some d →
  Stringify.stringify (savedNotes st) = Some (body d)
  ∧ download d = js "saved_notes.json"
  ∧ type d = js "application/json".
Proof.
  unfold handleDownload. destruct (Stringify.stringify _); [|done].
  by intros [= <-].
Qed.

(** X1.  What [handleDownload] writes, [handleRestore] reads back: restoring
    the downloaded file sets the saved notes to the ones that were
    downloaded and reports nothing.  Notes that are strings can always be
    downloaded, under the name [saved_notes.json]. *)
Theorem download_restore_round_trip (st st' : CreateNote.State) :
  (∀ d : Download,
     handleDownload st = Some d →
     handleRestore (Some (body d)) st' = (setSavedNotes (savedNotes st) st', []))
  ∧ (∀ notes : list jsstring,
       savedNotes st = JSON.JArray (JSON.JString <$> notes) →
       ∃ d : Download,
         handleDownload st = Some d ∧ download d = js "saved_notes.json").
Proof.
  split.
  - intros d (Hs & _)%handleDownload_body.
    unfold handleRestore, onload. by rewrite (parse_stringify _ _ Hs).
  - intros notes Hn. unfold handleDownload.
    rewrite Hn, stringify_strings. by eexists.
Qed.

(** Two notes, one with a quote and a line break in it, downloaded and
    restored over other notes. *)
Lemma download_restore_round_trip_witness :
  ∃ d : Download,
    handleDownload
      {| input := js "draft";
         savedNotes := JSON.JArray [JSON.JString (js "first");
                                    JSON.JString [34; 10; 97]%N];
         editedNoteIndex := None |} = Some d
    ∧ handleRestore (Some (body d)) CreateNote.initial
      = (setSavedNotes
           (JSON.JArray [JSON.JString (js "first"); JSON.JString [34; 10; 97]%N])
           CreateNote.initial, []).
Proof.
  eexists. split; [reflexivity|].
  exact (proj1 (download_restore_round_trip
                  {| input := js "draft";
                     savedNotes := JSON.JArray [JSON.JString (js "first");
                                                JSON.JString [34; 10; 97]%N];
                     editedNoteIndex := None |} CreateNote.initial)
           _ eq_refl).
Defined.

(** X2.  What the save effect stores, the load effect of a later mount
    reads back: the component then holds the saved notes that were stored.
    The save effect writes no other key.  Notes that are strings can always
    be stored. *)
Theorem save_load_round_trip
    (st st' : CreateNote.State) (storage : Storage) :
  (∀ storage' : Storage,
     save_effect st storage = Some storage' →
     load_effect storage' st' = Mounted (setSavedNotes (savedNotes st) st')
     ∧ ∀ key : jsstring,
         key ≠ js "savedNotes" → storage' !! key = storage !! key)
  ∧ (∀ notes : list jsstring,
       savedNotes st = JSON.JArray (JSON.JString <$> notes) →
       is_Some (save_effect st storage)).
Proof.
  split.
  - intros storage'. unfold save_effect.
    destruct (Stringify.stringify (savedNotes st)) as [text|] eqn:Hs; [|done].
    intros [= <-]. split.
    + unfold load_effect. rewrite lookup_insert_eq.
      destruct (stringify_head _ _ Hs) as (c & tl & -> & _).
      by rewrite (parse_stringify _ _ Hs).
    + intros key Hkey. by rewrite lookup_insert_ne.
  - intros notes Hn. unfold save_effect. by rewrite Hn, stringify_strings.
Qed.

Lemma save_load_round_trip_witness :
  ∃ storage' : Storage,
    save_effect
      {| input := []; savedNotes := JSON.JArray [JSON.JString (js "a note")];
         editedNoteIndex := None |} ∅ = Some storage'
    ∧ load_effect storage' CreateNote.initial
      = Mounted (setSavedNotes (JSON.JArray [JSON.JString (js "a note")])
                   CreateNote.initial).
Proof.
  eexists. split; [reflexivity|].
  exact (proj1 (proj1 (save_load_round_trip
                         {| input := [];
                            savedNotes := JSON.JArray [JSON.JString (js "a note")];
                            editedNoteIndex := None |} CreateNote.initial ∅)
                  _ eq_refl)).
Defined.

(** ** [CreateNote]: saving, editing and deleting notes *)

Lemma handleDelete_other
    (notes : list JSON.value) (text : jsstring)
    (edited : option nat) (indexToDelete : nat) :
  edited ≠ Some indexToDelete →
  handleDelete indexToDelete
    {| input := text; savedNotes := JSON.JArray notes;
       editedNoteIndex := edited |}
  = Returned {| input := text;
                savedNotes := JSON.JArray (delete indexToDelete notes);
                editedNoteIndex := edited |}.
Proof.
  intros Hne. unfold handleDelete; simpl.
  rewrite bool_decide_eq_false_2 by done.
  by rewrite <- (filter_index_delete notes 0 indexToDelete).
Qed.

Lemma delete_ge {A : Type} (l : list A) (i : nat) :
  (length l ≤ i)%nat → delete i l = l.
Proof.
  revert i. induction l as [|x l IH]; intros [|i] Hi; simpl in *;
    [done | done | lia |].
  f_equal. apply IH. lia.
Qed.

(** X3.  A note saved with [handleSave] goes to the end of the list and the
    input is cleared; deleting the last index right after gives back the
    notes as they were before the save (unless the edited index is that
    very index, in which case the delete only cancels the edit). *)
Theorem save_then_delete_last
    (notes : list JSON.value) (text : jsstring) (edited : option nat) :
  edited ≠ Some (length notes) →
  ∃ st1 : CreateNote.State,
    handleSave {| input := text; savedNotes := JSON.JArray notes;
                  editedNoteIndex := edited |} = Returned st1
    ∧ savedNotes st1 = JSON.JArray (notes ++ [JSON.JString text])
    ∧ handleDelete (length notes) st1
      = Returned {| input := []; savedNotes := JSON.JArray notes;
                    editedNoteIndex := edited |}.
Proof.
  intros Hne.
  exists {| input := []; savedNotes := JSON.JArray (notes ++ [JSON.JString text]);
            editedNoteIndex := edited |}.
  split; [reflexivity|]. split; [reflexivity|].
  rewrite handleDelete_other by done.
  by rewrite delete_middle, app_nil_r.
Qed.

Lemma save_then_delete_last_witness :
  ∃ st1 : CreateNote.State,
    handleSave {| input := js "c";
                  savedNotes := JSON.JArray (JSON.JString <$> [js "a"; js "b"]);
                  editedNoteIndex := Some 0%nat |} = Returned st1
    ∧ savedNotes st1
      = JSON.JArray ((JSON.JString <$> [js "a"; js "b"]) ++ [JSON.JString (js "c")])
    ∧ handleDelete (length (JSON.JString <$> [js "a"; js "b"])) st1
      = Returned {| input := [];
                    savedNotes := JSON.JArray (JSON.JString <$> [js "a"; js "b"]);
                    editedNoteIndex := Some 0%nat |}.
Proof.
  apply (save_then_delete_last (JSON.JString <$> [js "a"; js "b"]) (js "c")
           (Some 0%nat)).
  discriminate.
Defined.

(** X4.  Saving a text and then editing the note at the last index brings
    the text back into the input, with that index as the edited one: the
    saved note holds exactly what was typed. *)
Theorem save_then_edit_last
    (notes : list JSON.value) (text : jsstring) (edited : option nat) :
  ∃ st1 : CreateNote.State,
    handleSave {| input := text; savedNotes := JSON.JArray notes;
                  editedNoteIndex := edited |} = Returned st1
    ∧ input st1 = []
    ∧ handleEdit (length notes) st1
      = Some {| input := text;
                savedNotes := JSON.JArray (notes ++ [JSON.JString text]);
                editedNoteIndex := Some (length notes) |}.
Proof.
  exists {| input := []; savedNotes := JSON.JArray (notes ++ [JSON.JString text]);
            editedNoteIndex := edited |}.
  split; [reflexivity|]. split; [reflexivity|].
  unfold handleEdit. cbn [savedNotes].
  by rewrite list_lookup_middle.
Qed.

(** X5.  Deleting an index that is not the edited one: outside the list it
    changes nothing and throws nothing; inside the list the list gets one
    shorter, the notes before the index keep their places and the notes
    after it move up by one.  The input and the edited index stay. *)
Theorem delete_within_bounds
    (notes : list JSON.value) (text : jsstring)
    (edited : option nat) (indexToDelete : nat) :
  edited ≠ Some indexToDelete →
  ∃ notes' : list JSON.value,
    handleDelete indexToDelete
      {| input := text; savedNotes := JSON.JArray notes;
         editedNoteIndex := edited |}
    = Returned {| input := text; savedNotes := JSON.JArray notes';
                  editedNoteIndex := edited |}
    ∧ ((length notes ≤ indexToDelete)%nat → notes' = notes)
    ∧ ((indexToDelete < length notes)%nat → S (length notes') = length notes)
    ∧ (∀ j : nat, (j < indexToDelete)%nat → notes' !! j = notes !! j)
    ∧ (∀ j : nat, (indexToDelete ≤ j)%nat → notes' !! j = notes !! S j).
Proof.
  intros Hne. exists (delete indexToDelete notes).
  split; [by apply handleDelete_other|]. split; [apply delete_ge|].
  split.
  - intros Hlt. rewrite length_delete by (by apply lookup_lt_is_Some). lia.
  - split; intros j Hj.
    + by apply list_lookup_delete_lt.
    + by apply list_lookup_delete_ge.
Qed.

Lemma delete_within_bounds_witness :
  ∃ notes' : list JSON.value,
    handleDelete 5
      {| input := js "x";
         savedNotes := JSON.JArray (JSON.JString <$> [js "a"; js "b"]);
         editedNoteIndex := Some 1%nat |}
    = Returned {| input := js "x"; savedNotes := JSON.JArray notes';
                  editedNoteIndex := Some 1%nat |}
    ∧ ((length (JSON.JString <$> [js "a"; js "b"]) ≤ 5)%nat →
       notes' = JSON.JString <$> [js "a"; js "b"])
    ∧ ((5 < length (JSON.JString <$> [js "a"; js "b"]))%nat →
       S (length notes') = length (JSON.JString <$> [js "a"; js "b"]))
    ∧ (∀ j : nat, (j < 5)%nat →
         notes' !! j = (JSON.JString <$> [js "a"; js "b"]) !! j)
    ∧ (∀ j : nat, (5 ≤ j)%nat →
         notes' !! j = (JSON.JString <$> [js "a"; js "b"]) !! S j).
Proof.
  apply (delete_within_bounds (JSON.JString <$> [js "a"; js "b"]) (js "x")
           (Some 1%nat) 5).
  discriminate.
Defined.

(** X6.  [handleDelete] does not move the edited index.  When a note before
    the edited one is deleted, the note that was being edited sits one
    place earlier afterwards, while the edited index and the input are what
    they were: the index now designates the note that followed. *)
Theorem delete_before_edited_keeps_index
    (notes : list JSON.value) (text : jsstring) (e i : nat) :
  (i < e)%nat →
  ∃ notes' : list JSON.value,
    handleDelete i
      {| input := text; savedNotes := JSON.JArray notes;
         editedNoteIndex := Some e |}
    = Returned {| input := text; savedNotes := JSON.JArray notes';
                  editedNoteIndex := Some e |}
    ∧ notes' !! (e - 1)%nat = notes !! e
    ∧ notes' !! e = notes !! S e.
Proof.
  intros Hie. exists (delete i notes). split.
  - apply handleDelete_other. intros [= ->]. lia.
  - split.
    + rewrite list_lookup_delete_ge by lia. f_equal. lia.
    + apply list_lookup_delete_ge. lia.
Qed.

Lemma delete_before_edited_keeps_index_witness :
  ∃ notes' : list JSON.value,
    handleDelete 0
      {| input := js "b";
         savedNotes := JSON.JArray (JSON.JString <$> [js "a"; js "b"; js "c"]);
         editedNoteIndex := Some 1%nat |}
    = Returned {| input := js "b"; savedNotes := JSON.JArray notes';
                  editedNoteIndex := Some 1%nat |}
    ∧ notes' !! (1 - 1)%nat = (JSON.JString <$> [js "a"; js "b"; js "c"]) !! 1%nat
    ∧ notes' !! 1%nat = (JSON.JString <$> [js "a"; js "b"; js "c"]) !! 2%nat.
Proof.
  apply (delete_before_edited_keeps_index
           (JSON.JString <$> [js "a"; js "b"; js "c"]) (js "b") 1 0).
  lia.
Defined.

(** X7.  A restored file whose JSON value is not an array is accepted: no
    error is reported and the value replaces the saved notes.  The next
    render of the notes then throws a TypeError. *)
Theorem restore_non_array_breaks_render
    (content : jsstring) (v : JSON.value) (st : CreateNote.State) :
  JSON.parse content = Some v →
  (∀ elements, v ≠ JSON.JArray elements) →
  handleRestore (Some content) st = (setSavedNotes v st, [])
  ∧ render_notes (handleRestore (Some content) st).1 = TypeError.
Proof.
  intros Hp Harr. unfold handleRestore, onload. rewrite Hp.
  split; [done|]. unfold render_notes. simpl.
  destruct v; try done. by edestruct Harr.
Qed.

(** A file that holds an object with a repeated key. *)
Lemma restore_non_array_breaks_render_witness :
  handleRestore
    (Some (js "{" ++ [34; 97; 34]%N ++ js ":1," ++ [34; 97; 34]%N ++ js ":2}"))
    CreateNote.initial
  = (setSavedNotes (JSON.JObject [(js "a", JSON.JNumber (js "2"))])
       CreateNote.initial, [])
  ∧ render_notes
      (handleRestore
         (Some (js "{" ++ [34; 97; 34]%N ++ js ":1," ++ [34; 97; 34]%N ++ js ":2}"))
         CreateNote.initial).1
    = TypeError.
Proof.
  apply (restore_non_array_breaks_render _
           (JSON.JObject [(js "a", JSON.JNumber (js "2"))])).
  - reflexivity.
  - discriminate.
Defined.

(** ** [CreateNote]: publishing *)

(** X8.  [handlePublish] never changes the state and has at most one
    effect.  It publishes only to [RELAYS], only after the user has
    confirmed, and only an event for which the signer has given the public
    key and the signature; it starts a publish attempt exactly when it
    publishes. *)
Theorem publish_only_when_signed
    getEventHash hashtags (w : Window) (st : CreateNote.State) :
  (handlePublish getEventHash hashtags w st).1.1 = st
  ∧ (length (handlePublish getEventHash hashtags w st).1.2 ≤ 1)%nat
  ∧ (∀ relays event,
       Publish relays event ∈ (handlePublish getEventHash hashtags w st).1.2 →
       relays = RELAYS
       ∧ confirm w (js "Are you sure you want to publish this note to Nostr?")
         = true
       ∧ ∃ signer : Signer,
           nostr w = Some signer
           ∧ getPublicKey signer = Resolved (Event.pubkey event)
           ∧ signEvent signer (baseEvent (input st) hashtags (now w))
             = Resolved (Event.sig event))
  ∧ ((handlePublish getEventHash hashtags w st).2 = Some {| clearedInput := false |}
     ↔ ∃ event, (handlePublish getEventHash hashtags w st).1.2
                = [Publish RELAYS event]).
Proof.
  unfold handlePublish.
  destruct (nostr w) as [signer|] eqn:Hn; simpl.
  2:{ split; [done|]. split; [done|]. split.
      - by intros relays event [=]%list_elem_of_singleton.
      - split; [done | by intros [event [=]]]. }
  destruct (confirm w _) eqn:Hc; simpl.
  2:{ split; [done|]. split; [lia|]. split.
      - by intros relays event ?%elem_of_nil.
      - split; [done | by intros [event [=]]]. }
  destruct (getPublicKey signer) as [pubkey|] eqn:Hpk; simpl.
  2:{ split; [done|]. split; [done|]. split.
      - by intros relays event [=]%list_elem_of_singleton.
      - split; [done | by intros [event [=]]]. }
  destruct (signEvent signer _) as [sig|] eqn:Hsig; simpl.
  2:{ split; [done|]. split; [done|]. split.
      - by intros relays event [=]%list_elem_of_singleton.
      - split; [done | by intros [event [=]]]. }
  split; [done|]. split; [done|]. split.
  - intros relays event [= -> ->]%list_elem_of_singleton.
    split; [done|]. split; [done|]. by exists signer.
  - split; [intros _; by eexists | done].
Qed.

Lemma publish_only_when_signed_witness :
  RELAYS = RELAYS
  ∧ true = true
  ∧ ∃ signer : Signer,
      Some {| getPublicKey := Resolved (js "pk");
              signEvent := λ _, Resolved (js "sig") |} = Some signer
      ∧ getPublicKey signer = Resolved (js "pk")
      ∧ signEvent signer (baseEvent (js "hello") [js "nostr"] 1700000000499)
        = Resolved (js "sig").
Proof.
  exact (proj1 (proj2 (proj2 (publish_only_when_signed
           (λ _ _, js "hash") [js "nostr"]
           {| nostr := Some {| getPublicKey := Resolved (js "pk");
                               signEvent := λ _, Resolved (js "sig") |};
              confirm := λ _, true;
              now := 1700000000499 |}
           {| input := js "hello"; savedNotes := JSON.JArray [];
              editedNoteIndex := None |})))
           RELAYS
           {| Event.id := js "hash"; Event.pubkey := js "pk";
              Event.created_at := 1700000000; Event.kind := 1;
              Event.tags := [[js "t"; js "nostr"]];
              Event.content := js "hello"; Event.sig := js "sig" |}
           ltac:(apply list_elem_of_singleton; reflexivity)).
Defined.

(** [Math.round(Date.now() / 1000)] is the second nearest to the time, the
    later one at a half. *)
Lemma created_at_of_nearest (now : Z) :
  now - 500 < 1000 * created_at_of now <= now + 500.
Proof.
  unfold created_at_of.
  pose proof (Z.div_mod (now + 500) 1000 ltac:(lia)).
  pose proof (Z.mod_pos_bound (now + 500) 1000 ltac:(lia)). lia.
Qed.

(** X9.  The event that [handlePublish] publishes carries the draft: its
    content is the input, its kind is 1, it has one tag [["t", hashtag]] for
    each hashtag, in order, its id is the hash of the template and the public
    key, and its timestamp, in seconds, is within half a second of the time
    of the publish. *)
Theorem published_event_carries_draft
    getEventHash hashtags (w : Window) (st : CreateNote.State)
    (relays : list jsstring) (event : Event.t) :
  Publish relays event ∈ (handlePublish getEventHash hashtags w st).1.2 →
  Event.content event = input st
  ∧ Event.kind event = 1
  ∧ Event.tags event = (λ hashtag, [js "t"; hashtag]) <$> hashtags
  ∧ Event.id event
    = getEventHash (baseEvent (input st) hashtags (now w)) (Event.pubkey event)
  ∧ now w - 500 < 1000 * Event.created_at event <= now w + 500.
Proof.
  unfold handlePublish.
  destruct (nostr w) as [signer|]; simpl;
    [|by intros [=]%list_elem_of_singleton].
  destruct (confirm w _); simpl; [|by intros ?%elem_of_nil].
  destruct (getPublicKey signer) as [pubkey|]; simpl;
    [|by intros [=]%list_elem_of_singleton].
  destruct (signEvent signer _) as [sig|]; simpl;
    [|by intros [=]%list_elem_of_singleton].
  intros [= -> ->]%list_elem_of_singleton. simpl.
  repeat split; try done; apply created_at_of_nearest.
Qed.

Lemma published_event_carries_draft_witness :
  ∃ event : Event.t,
    Event.content event = js "hello"
    ∧ Event.kind event = 1
    ∧ Event.tags event = [[js "t"; js "nostr"]]
    ∧ Event.id event = js "hash"
    ∧ 1700000000499 - 500 < 1000 * Event.created_at event
      <= 1700000000499 + 500.
Proof.
  eexists.
  exact (published_event_carries_draft (λ _ _, js "hash") [js "nostr"]
           {| nostr := Some {| getPublicKey := Resolved (js "pk");
                               signEvent := λ _, Resolved (js "sig") |};
              confirm := λ _, true;
              now := 1700000000499 |}
           {| input := js "hello"; savedNotes := JSON.JArray [];
              editedNoteIndex := None |}
           RELAYS _ ltac:(apply list_elem_of_singleton; reflexivity)).
Defined.

(** X10.  What the relays answer to a publish never changes the saved
    notes: a published draft stays in the list.  If no relay acknowledges,
    nothing changes at all. *)
Theorem relay_answers_keep_saved_notes
    (answers : list (jsstring * bool)) (p : Publication)
    (st : CreateNote.State) :
  savedNotes (occur_all (response <$> answers) (p, st)).2 = savedNotes st
  ∧ (Forall (λ answer, answer.2 = false) answers →
     occur_all (response <$> answers) (p, st) = (p, st)).
Proof.
  split.
  - revert p st. induction answers as [|[relay ok] answers IH]; intros p st;
      [done|].
    unfold occur_all in *. cbn [fmap list_fmap foldl].
    destruct ok; cbn [response fst snd occur]; [|apply IH].
    unfold on_ok. destruct (clearedInput p); rewrite IH; done.
  - induction 1 as [|[relay ok] answers Hok Hall IH]; [done|].
    simpl in Hok. subst ok. exact IH.
Qed.

Lemma relay_answers_keep_saved_notes_witness :
  occur_all (response <$> [(js "r1", false); (js "r2", false)])
    ({| clearedInput := false |},
     {| input := js "draft"; savedNotes := JSON.JArray [];
        editedNoteIndex := Some 0%nat |})
  = ({| clearedInput := false |},
     {| input := js "draft"; savedNotes := JSON.JArray [];
        editedNoteIndex := Some 0%nat |}).
Proof.
  apply (relay_answers_keep_saved_notes [(js "r1", false); (js "r2", false)]).
  repeat constructor.
Defined.

(** ** [App]: subscriptions *)

Import Subscriptions.

Lemma bracket_app (open : bool) (log1 log2 : list request) :
  bracket open (log1 ++ log2) = bracket open log1 ≫= λ o, bracket o log2.
Proof.
  revert open. induction log1 as [|r log1 IH]; intros open; [done|].
  destruct r as [relays filters|]; cbn [app bracket].
  - destruct (is_feed filters); [destruct open|]; by rewrite ?IH.
  - destruct open; by rewrite ?IH.
Qed.

Lemma step_bracket (st : App.State) (a : action) :
  bracket (subscribed st) (step st a).2 = Some (subscribed (step st a).1).
Proof.
  destruct st as [[p|] feed snapshot m tags [|]];
    destruct a as [|tags'|event|]; reflexivity.
Qed.

(** X11.  The component never has two feed subscriptions open.  In the
    requests of any run, read in order, every feed subscription comes when
    none is open and every unsub when one is open; at the end one is open
    exactly when the state says so.  From the initial state the log starts
    with none open. *)
Theorem feed_subscriptions_bracketed (st : App.State) (actions : list action) :
  bracket (subscribed st) (run st actions).2
  = Some (subscribed (run st actions).1)
  ∧ bracket false (run App.initial actions).2
    = Some (subscribed (run App.initial actions).1).
Proof.
  assert (H : ∀ st, bracket (subscribed st) (run st actions).2
                    = Some (subscribed (run st actions).1)).
  { clear st. induction actions as [|a actions IH]; intros st; [done|].
    cbn [run]. pose proof (step_bracket st a) as Hs.
    destruct (step st a) as [st1 r1]. specialize (IH st1).
    destruct (run st1 actions) as [st2 r2]. cbn [fst snd] in *.
    rewrite bracket_app, Hs. exact IH. }
  split; [apply H | apply (H App.initial)].
Qed.

Example subscriptions_log :
  (run App.initial
     [HashtagsChanged [js "a"]; PoolCreated; HashtagsChanged [js "b"];
      EventReceived (item "1" 10); HashtagsChanged [js "c"]]).2
  = [Sub RELAYS [feed_filter [js "a"]]; Sub RELAYS [metadata_filter []];
     Unsub; Sub RELAYS [feed_filter [js "b"]];
     Unsub; Sub RELAYS [feed_filter [js "c"]]].
Proof. reflexivity. Qed.

(** ** [App]: every author of the feed is asked for *)

Section MetadataCoverage.

Implicit Types (st : App.State) (k : jsstring).

Lemma run_snoc st (actions : list action) (a : action) :
  run st (actions ++ [a])
  = ((step (run st actions).1 a).1,
     (run st actions).2 ++ (step (run st actions).1 a).2).
Proof.
  rewrite run_app. cbn [run]. destruct (step _ a) as [st2 r2]. simpl.
  by rewrite app_nil_r.
Qed.

(** With a pool, the metadata effect leaves every author of [events]
    recorded. *)
Lemma metadata_effect_covers st (e : Event.t) :
  pool st ≠ None → e ∈ events st → Event.pubkey e ≠ proto_key →
  metadataFetched (metadata_effect st).1 !! Event.pubkey e = Some true.
Proof.
  intros Hp He Hproto. unfold metadata_effect.
  destruct (pool st); [|done]. simpl. apply mark_fetched_lookup; [done|].
  destruct (decide (metadataFetched st !! Event.pubkey e = Some true))
    as [Hm|Hm]; [by right|].
  left. unfold pubkeysToFetch. apply list_elem_of_fmap. exists e.
  split; [done|]. apply list_elem_of_In, filter_In. split.
  - by apply list_elem_of_In.
  - unfold not_fetched. apply negb_true_iff, not_true_iff_false.
    by rewrite is_fetched_lookup.
Qed.

(** What the metadata effect records, it has asked for or found
    recorded. *)
Lemma metadata_effect_recorded st k :
  k ≠ proto_key →
  metadataFetched (metadata_effect st).1 !! k = Some true →
  metadataFetched st !! k = Some true
  ∨ fetches_of k (metadata_fetches (metadata_effect st).2) = 1%nat.
Proof.
  intros Hproto. unfold metadata_effect. destruct (pool st); simpl; [|by left].
  intros [Hk|Hm]%mark_fetched_lookup; [right | by left | done].
  unfold fetches_of. simpl. by rewrite bool_decide_eq_true_2.
Qed.

Lemma step_recorded st (a : action) k :
  k ≠ proto_key →
  metadataFetched (step st a).1 !! k = Some true →
  metadataFetched st !! k = Some true
  ∨ fetches_of k (metadata_fetches (step st a).2) = 1%nat.
Proof.
  intros Hproto.
  destruct (step_shape st a) as [[_ ->] | (st0 & r & Hm & Hr & ->)];
    [by left|].
  cbn [fst snd]. rewrite metadata_fetches_app, Hr, app_nil_l, <- Hm.
  by apply metadata_effect_recorded.
Qed.

(** In a run from the initial state, a recorded key has been asked for
    exactly once. *)
Lemma recorded_fetched_once (actions : list action) k :
  k ≠ proto_key →
  metadataFetched (run App.initial actions).1 !! k = Some true →
  fetches_of k (metadata_fetches (run App.initial actions).2) = 1%nat.
Proof.
  intros Hproto.
  induction actions as [|a actions IH] using rev_ind; [done|].
  rewrite run_snoc. cbn [fst snd].
  rewrite metadata_fetches_app, fetches_of_app.
  destruct (run_fetch App.initial actions k Hproto) as (Hle & _ & Hrec).
  destruct (step_fetch (run App.initial actions).1 a k Hproto)
    as (Hle' & Hzero & _).
  intros [Hm|Hone]%step_recorded; [| |done].
  - rewrite (IH Hm), (Hzero Hm). done.
  - rewrite Hone.
    destruct (decide (fetches_of k (metadata_fetches (run App.initial actions).2)
                      = 1%nat)) as [H1|H1]; [|lia].
    specialize (Hrec (or_intror H1)). specialize (Hzero Hrec). lia.
Qed.

Lemma metadata_effect_pool st : pool (metadata_effect st).1 = pool st.
Proof. unfold metadata_effect. by destruct (pool st) eqn:Hp. Qed.

Lemma metadata_effect_events st : events (metadata_effect st).1 = events st.
Proof. unfold metadata_effect. by destruct (pool st). Qed.

(** When the pool is created the metadata effect runs last, with a pool
    and on the debounced feed as it was. *)
Lemma pool_created_step st :
  ∃ st0 : App.State,
    (step st PoolCreated).1 = (metadata_effect st0).1
    ∧ events st0 = events st
    ∧ pool st0 ≠ None.
Proof.
  destruct st as [p feed snapshot m tags [|]];
    exists {| pool := Some new_SimplePool; eventsImmediate := [];
              events := snapshot; metadataFetched := m; hashtags := tags;
              subscribed := true |};
    by repeat split.
Qed.

(** A change of hashtags and an arriving event leave the pool, the
    debounced feed and the record of fetched keys as they are. *)
Lemma step_keeps_snapshot st (a : action) :
  (∃ tags, a = HashtagsChanged tags) ∨ (∃ event, a = EventReceived event) →
  pool (step st a).1 = pool st
  ∧ events (step st a).1 = events st
  ∧ metadataFetched (step st a).1 = metadataFetched st.
Proof.
  intros [[tags ->]|[event ->]];
    destruct st as [[p|] feed snapshot m tags' [|]]; by repeat split.
Qed.

(** One step keeps: without a pool the debounced feed is empty, and every
    author of the debounced feed is recorded. *)
Lemma step_events_recorded st (a : action) :
  no_pool_no_feed st →
  (pool st = None → events st = []) →
  (∀ e, e ∈ events st → Event.pubkey e ≠ proto_key →
        metadataFetched st !! Event.pubkey e = Some true) →
  (pool (step st a).1 = None → events (step st a).1 = [])
  ∧ (∀ e, e ∈ events (step st a).1 → Event.pubkey e ≠ proto_key →
       metadataFetched (step st a).1 !! Event.pubkey e = Some true).
Proof.
  intros Hinv Hnone Hrec. destruct a as [|tags|event|].
  - destruct (pool_created_step st) as (st0 & Hstep & Hev & Hp).
    rewrite Hstep, metadata_effect_pool, metadata_effect_events. split.
    + done.
    + intros e He Hproto. by apply metadata_effect_covers.
  - destruct (step_keeps_snapshot st (HashtagsChanged tags)
                (or_introl (ex_intro _ tags eq_refl))) as (-> & -> & ->).
    done.
  - destruct (step_keeps_snapshot st (EventReceived event)
                (or_intror (ex_intro _ event eq_refl))) as (-> & -> & ->).
    done.
  - cbn [step]. rewrite metadata_effect_pool, metadata_effect_events.
    cbn [pool events set_events].
    destruct (pool st) as [p|] eqn:Hp.
    + split; [done|]. intros e He Hproto.
      apply metadata_effect_covers; [|done..]. simpl. by rewrite Hp.
    + destruct (Hinv Hp) as [Hfeed _]. rewrite Hfeed.
      split; [done|]. by intros e ?%elem_of_nil.
Qed.

Lemma run_events_recorded (actions : list action) :
  no_pool_no_feed (run App.initial actions).1
  ∧ (pool (run App.initial actions).1 = None →
     events (run App.initial actions).1 = [])
  ∧ (∀ e, e ∈ events (run App.initial actions).1 →
       Event.pubkey e ≠ proto_key →
       metadataFetched (run App.initial actions).1 !! Event.pubkey e
       = Some true).
Proof.
  induction actions as [|a actions (Hinv & Hnone & Hrec)] using rev_ind.
  - split; [done|]. split; [done|]. by intros e ?%elem_of_nil.
  - rewrite run_snoc. cbn [fst]. split.
    + by apply step_no_pool_no_feed.
    + by apply step_events_recorded.
Qed.

End MetadataCoverage.

(** X12.  In every run from the initial state, the metadata of every author
    of the debounced feed, the key [__proto__] apart, has been asked for in
    exactly one fetch. *)
Theorem feed_authors_fetched_exactly_once
    (actions : list action) (e : Event.t) :
  e ∈ events (run App.initial actions).1 →
  Event.pubkey e ≠ proto_key →
  fetches_of (Event.pubkey e)
    (metadata_fetches (run App.initial actions).2) = 1%nat.
Proof.
  intros He Hproto. apply recorded_fetched_once; [done|].
  by apply run_events_recorded.
Qed.

Lemma feed_authors_fetched_exactly_once_witness :
  item "b" 20
  ∈ events (run App.initial
              [PoolCreated; EventReceived (item "a" 10);
               EventReceived (item "b" 20); Debounced]).1
  ∧ Event.pubkey (item "b" 20) ≠ proto_key
  ∧ fetches_of (Event.pubkey (item "b" 20))
      (metadata_fetches
         (run App.initial
            [PoolCreated; EventReceived (item "a" 10);
             EventReceived (item "b" 20); Debounced]).2) = 1%nat.
Proof.
  assert (He : item "b" 20
               ∈ events (run App.initial
                           [PoolCreated; EventReceived (item "a" 10);
                            EventReceived (item "b" 20); Debounced]).1).
  { apply elem_of_cons. by left. }
  assert (Hproto : Event.pubkey (item "b" 20) ≠ proto_key) by discriminate.
  split; [exact He|]. split; [exact Hproto|].
  exact (feed_authors_fetched_exactly_once _ _ He Hproto).
Defined.

Lemma run_without_pool (st : App.State) (actions : list action) :
  pool st = None → subscribed st = false → PoolCreated ∉ actions →
  (run st actions).2 = []
  ∧ pool (run st actions).1 = None
  ∧ eventsImmediate (run st actions).1 = eventsImmediate st
  ∧ metadataFetched (run st actions).1 = metadataFetched st.
Proof.
  revert st. induction actions as [|a actions IH]; intros st Hp Hs Hno; [done|].
  apply not_elem_of_cons in Hno as [Ha Hno]. cbn [run].
  assert ((step st a).2 = [] ∧ pool (step st a).1 = None
          ∧ subscribed (step st a).1 = false
          ∧ eventsImmediate (step st a).1 = eventsImmediate st
          ∧ metadataFetched (step st a).1 = metadataFetched st)
    as (Hr & Hp' & Hs' & He & Hm).
  { destruct st as [p feed snapshot m tags sub]. simpl in Hp, Hs. subst p sub.
    by destruct a. }
  destruct (step st a) as [st1 r1]. cbn [fst snd] in *. subst r1.
  destruct (IH st1 Hp' Hs' Hno) as (Hr2 & Hp2 & He2 & Hm2).
  destruct (run st1 actions) as [st2 r2]. cbn [fst snd] in *.
  subst r2. by rewrite He2, Hm2.
Qed.

(** X13.  Without a pool the component asks nothing of the relays: as long
    as the pool has not been created, whatever else happens, no subscription
    and no metadata fetch is made, the feed stays empty and no key is
    recorded as fetched. *)
Theorem no_requests_without_pool (actions : list action) :
  PoolCreated ∉ actions →
  (run App.initial actions).2 = []
  ∧ eventsImmediate (run App.initial actions).1 = []
  ∧ metadataFetched (run App.initial actions).1 = ∅.
Proof.
  intros Hno.
  destruct (run_without_pool App.initial actions eq_refl eq_refl Hno)
    as (Hr & _ & He & Hm).
  by rewrite Hr, He, Hm.
Qed.

Lemma no_requests_without_pool_witness :
  (run App.initial
     [HashtagsChanged [js "nostr"]; EventReceived (item "a" 10); Debounced]).2
  = []
  ∧ eventsImmediate
      (run App.initial
         [HashtagsChanged [js "nostr"]; EventReceived (item "a" 10); Debounced]).1
    = []
  ∧ metadataFetched
      (run App.initial
         [HashtagsChanged [js "nostr"]; EventReceived (item "a" 10); Debounced]).1
    = ∅.
Proof.
  apply (no_requests_without_pool
           [HashtagsChanged [js "nostr"]; EventReceived (item "a" 10); Debounced]).
  intros Hin. repeat (apply elem_of_cons in Hin as [Hin|Hin]; [discriminate|]).
  by apply elem_of_nil in Hin.
Defined.

(** X14.  In any run of the component, from any state of the session, the
    metadata of an author key other than [__proto__] is asked for in at
    most one fetch.  Such a key, once it reads as fetched, is in none of the
    later fetches, whatever the feed becomes; and once it has been asked
    for, it reads as fetched. *)
Theorem other_keys_fetched_at_most_once
    (st : App.State) (actions : list action) (pubkey : jsstring) :
  pubkey ≠ proto_key →
  (fetches_of pubkey (metadata_fetches (run st actions).2) ≤ 1)%nat
  ∧ (is_fetched (metadataFetched st) pubkey = true →
     fetches_of pubkey (metadata_fetches (run st actions).2) = 0%nat)
  ∧ (fetches_of pubkey (metadata_fetches (run st actions).2) = 1%nat →
     is_fetched (metadataFetched (run st actions).1) pubkey = true).
Proof.
  intros Hproto.
  destruct (run_fetch st actions pubkey Hproto) as (Hle & Hzero & Hrec).
  split; [done|]. split.
  - intros Hm. apply Hzero. by apply is_fetched_lookup.
  - intros Hone. apply is_fetched_lookup; [done|]. apply Hrec. by right.
Qed.

(** The key [author] reads as fetched; a run that brings an event of that
    author into the feed does not ask for it again. *)
Lemma other_keys_fetched_at_most_once_witness :
  js "author" ≠ proto_key
  ∧ is_fetched
      (metadataFetched
         (set_metadataFetched (<[js "author" := true]> ∅) App.initial))
      (js "author") = true
  ∧ fetches_of (js "author")
      (metadata_fetches
         (run (set_metadataFetched (<[js "author" := true]> ∅) App.initial)
            [PoolCreated; EventReceived (item "a" 10); Debounced]).2)
    = 0%nat.
Proof.
  assert (Hproto : js "author" ≠ proto_key) by discriminate.
  assert (Hm : is_fetched
                 (metadataFetched
                    (set_metadataFetched (<[js "author" := true]> ∅) App.initial))
                 (js "author") = true).
  { apply is_fetched_lookup; [done|]. apply lookup_insert_eq. }
  split; [exact Hproto|]. split; [exact Hm|].
  exact (proj1 (proj2 (other_keys_fetched_at_most_once _ _ _ Hproto)) Hm).
Defined.
